(** * The Caffe serving session: a shallow embedding and its properties

    Source: tensorflow_serving/servables/caffe/caffe_serving_session.cc.

    The adapter owns one caffe::Net<float>, remembers the batch size its
    input blobs are shaped for (batch_size_), and translates a
    tensorflow::Session::Run request into blob copies around one forward
    pass.  The Caffe engine itself (Net, Blob, the protobuf reader) is a
    library the adapter links against; here it is an interface, [Engine],
    whose operations the adapter calls and whose results it stores. *)

From stdpp Require Import gmap strings list fin_maps.
From Stdlib Require Import ZArith Lia.

Local Open Scope Z_scope.

(** ** Machine integers

    [unsigned int] and [int] are 32 bits wide, [int64], [size_t] and
    [unsigned long] 64 bits.  Values are kept in [Z]; every conversion the
    source performs is written out. *)

Definition INT_MAX : Z := 2 ^ 31 - 1.
Definition to_uint32 (z : Z) : Z := z mod 2 ^ 32.
Definition to_int32 (z : Z) : Z := (z + 2 ^ 31) mod 2 ^ 32 - 2 ^ 31.
Definition to_uint64 (z : Z) : Z := z mod 2 ^ 64.

(** [v[i]] and [v.at(i)] convert an [int] index to [size_t] first. *)
Definition index (i : Z) : nat := Z.to_nat (to_uint64 i).

(** ** Engine-side data: blobs and nets *)

(** The adapter only ever copies floats, so a float is its bit pattern. *)
Definition float : Type := Z.

(** caffe::Blob<float>: a shape (vector<int>) and the storage behind
    cpu_data() / mutable_cpu_data(). *)
Record Blob : Type := mkBlob {
  shape : list Z;
  cpu_data : list float;
}.

(** caffe::Net<float> as far as the adapter reads it: blobs(),
    blob_names(), input_blob_indices(), output_blob_indices(), and the
    learnable parameters that CopyTrainedLayersFrom overwrites. *)
Record Net : Type := mkNet {
  blobs : list Blob;
  blob_names : list string;
  input_blob_indices : list Z;
  output_blob_indices : list Z;
  params : list Blob;
}.

Definition with_blobs (bs : list Blob) (n : Net) : Net :=
  mkNet bs (blob_names n) (input_blob_indices n) (output_blob_indices n)
        (params n).

(** The engine operations the adapter calls.  Each may end the process on
    a failed CHECK inside Caffe; that is [None]. *)
Class Engine : Type := {
  NetParameter : Type;
  (** new caffe::Net<float>(graph) *)
  Net_new : NetParameter → option Net;
  (** blob.Reshape(new_shape) *)
  Blob_Reshape : Blob → list Z → option Blob;
  (** blob.channels(): the per-example element count the blob declares *)
  Blob_channels : Blob → option Z;
  (** net_->Reshape(): shape propagation through the layers *)
  Net_Reshape : Net → option Net;
  (** net_->Forward() *)
  Net_Forward : Net → option Net;
  (** net_->CopyTrainedLayersFrom(param) *)
  Net_CopyTrainedLayersFrom : Net → NetParameter → option Net;
  (** caffe::ReadProtoFromBinaryFile(filename, &param); [None] is [false] *)
  ReadProtoFromBinaryFile : string → option NetParameter;
}.

(** ** Caller-side data: tensors and statuses *)

Inductive DataType : Type := DT_FLOAT | DT_INT32 | DT_STRING.

Global Instance DataType_eq_dec : EqDecision DataType.
Proof. solve_decision. Defined.

(** tensorflow::Tensor: element type, dimension sizes (int64) and the flat
    element buffer. *)
Record Tensor : Type := mkTensor {
  dtype : DataType;
  tensor_shape : list Z;
  tensor_data : list float;
}.

(** Tensor::dims() *)
Definition dims (t : Tensor) : Z := Z.of_nat (length (tensor_shape t)).

(** Tensor::dim_size(d); out of range it has no defined result. *)
Definition dim_size (t : Tensor) (d : nat) : option Z := tensor_shape t !! d.

(** A TensorShape holds no negative dimension. *)
Definition valid_shape (t : Tensor) : Prop :=
  Forall (λ d, 0 ≤ d) (tensor_shape t).

(** The arguments of errors::InvalidArgument(...), kept as given (the
    library concatenates them into the message). *)
Inductive piece : Type :=
  | Str (s : string)
  | Num (n : Z).

Inductive Status : Type :=
  | OK
  | InvalidArgument (msg : list piece).

Definition is_InvalidArgument (st : Status) : Prop :=
  match st with InvalidArgument _ => True | OK => False end.

(** ** The session object *)

Record CaffeServingSession : Type := mkSession {
  net_ : Net;
  batch_size_ : Z;
  input_blob_map_ : gmap string Z;
  output_blob_map_ : gmap string Z;
}.

(** Calls into the engine, in program order. *)
Inductive Event : Type :=
  | EvBlobReshape (idx : Z) (new_shape : list Z)
  | EvNetReshape
  | EvCopyInput (idx : Z)
  | EvForward
  | EvCopyTrainedLayers.

(** What a member function can touch: the session, the caller's output
    vector, and (as a record of what happened) the engine calls made. *)
Record World : Type := mkWorld {
  session : CaffeServingSession;
  outputs : list Tensor;
  trace : list Event;
}.

(** ** A state-and-error monad for the member functions

    [Done]: control reached the end of the statement.  [Fail]: an early
    [return errors::...].  [Crash]: the call has no result (an uncaught
    std::out_of_range, a failed CHECK, an access outside a buffer). *)
Inductive outcome (A : Type) : Type :=
  | Done (a : A) (w : World)
  | Fail (st : Status) (w : World)
  | Crash.
Arguments Done {A} a w.
Arguments Fail {A} st w.
Arguments Crash {A}.

Definition M (A : Type) : Type := World → outcome A.

Global Instance M_ret : MRet M := λ A a w, Done a w.
Global Instance M_bind : MBind M := λ A B f m w,
  match m w with
  | Done a w' => f a w'
  | Fail st w' => Fail st w'
  | Crash => Crash
  end.

Definition fail {A} (st : Status) : M A := λ w, Fail st w.
Definition crash {A} : M A := λ _, Crash.
Definition get : M CaffeServingSession := λ w, Done (session w) w.
Definition put (s : CaffeServingSession) : M unit :=
  λ w, Done tt (mkWorld s (outputs w) (trace w)).
Definition emit (e : Event) : M unit :=
  λ w, Done tt (mkWorld (session w) (outputs w) (trace w ++ [e])).
Definition set_outputs (ts : list Tensor) : M unit :=
  λ w, Done tt (mkWorld (session w) ts (trace w)).
Definition get_outputs : M (list Tensor) := λ w, Done (outputs w) w.

(** A partial library call: [None] has no result. *)
Definition defined {A} (o : option A) : M A :=
  match o with Some a => mret a | None => crash end.

(** [if (c) return st;] *)
Definition return_if (c : bool) (st : Status) : M unit :=
  if c then fail st else mret tt.

(** [for (x : l) body] *)
Fixpoint for_each {A} (body : A → M unit) (l : list A) : M unit :=
  match l with
  | [] => mret tt
  | x :: l' => body x ;; for_each body l'
  end.

Definition set_net (n : Net) : M unit :=
  s ← get;
  put (mkSession n (batch_size_ s) (input_blob_map_ s) (output_blob_map_ s)).

Definition set_batch_size (b : Z) : M unit :=
  s ← get;
  put (mkSession (net_ s) b (input_blob_map_ s) (output_blob_map_ s)).

(** The status a member function hands back, with the world it leaves. *)
Definition call (m : M unit) (w : World) : option (Status * World) :=
  match m w with
  | Done _ w' => Some (OK, w')
  | Fail st w' => Some (st, w')
  | Crash => None
  end.

(** ** What a call leaves alone *)

Definition same_bindings (s s' : CaffeServingSession) : Prop :=
  input_blob_map_ s' = input_blob_map_ s
  ∧ output_blob_map_ s' = output_blob_map_ s.

(** Between [w] and [w'] the engine was called, but not for a forward
    pass. *)
Definition no_forward (w w' : World) : Prop :=
  ∃ evs, trace w' = trace w ++ evs ∧ EvForward ∉ evs.

(** Only blobs were touched: same bindings, same capacity, same output
    vector, no forward pass. *)
Definition quiet (w w' : World) : Prop :=
  same_bindings (session w) (session w')
  ∧ batch_size_ (session w') = batch_size_ (session w)
  ∧ outputs w' = outputs w
  ∧ no_forward w w'.

(** ** The member functions *)

Section Adapter.
Context `{Engine}.

(** BatchSizeOf (lines 63-72). *)
Definition BatchSizeOf (net : Net) : option Z :=
  foldl (λ acc idx,
           x ← acc;
           blob ← blobs net !! index idx;
           let shape := shape blob in
           if bool_decide (1 < length shape)%nat && (0 <? hd 0 shape)
           then Some (Z.max x (to_uint32 (hd 0 shape)))
           else Some x)
        (Some 1) (input_blob_indices net).

(** unordered_map::emplace keeps an entry that is already there. *)
Definition emplace (k : string) (v : Z) (m : gmap string Z) : gmap string Z :=
  match m !! k with
  | Some _ => m
  | None => <[k := v]> m
  end.

(** The two loops of the constructor (lines 109-115). *)
Definition bind_names (names : list string) (indices : list Z)
  : option (gmap string Z) :=
  foldl (λ acc idx,
           m ← acc;
           name ← names !! index idx;
           Some (emplace name idx m))
        (Some ∅) indices.

(** The constructor (lines 101-124).  Device selection and logging leave
    the session untouched and are left out. *)
Definition new_session (graph : NetParameter) : option CaffeServingSession :=
  net ← Net_new graph;
  let names := blob_names net in
  input_map ← bind_names names (input_blob_indices net);
  output_map ← bind_names names (output_blob_indices net);
  batch_size ← BatchSizeOf net;
  Some (mkSession net batch_size input_map output_map).

(** One iteration of the loop in Reshape (lines 225-231). *)
Definition reshape_input (batch_size : Z) (idx : Z) : M unit :=
  s ← get;
  blob ← defined (blobs (net_ s) !! index idx);
  let new_shape := shape blob in
  if bool_decide (1 < length new_shape)%nat && (0 <? hd 0 new_shape)
  then
    let new_shape := <[0%nat := to_int32 batch_size]> new_shape in
    blob' ← defined (Blob_Reshape blob new_shape);
    set_net (with_blobs (<[index idx := blob']> (blobs (net_ s))) (net_ s)) ;;
    emit (EvBlobReshape idx new_shape)
  else mret tt.

(** CaffeServingSession::Reshape (lines 219-238). *)
Definition Reshape (batch_size : Z) : M unit :=
  return_if (batch_size <=? 0)
    (InvalidArgument [Str "batch_size must be at least 1"]) ;;
  s ← get;
  if batch_size_ s =? batch_size then mret tt
  else
    for_each (reshape_input batch_size) (input_blob_indices (net_ s)) ;;
    s ← get;
    net ← defined (Net_Reshape (net_ s));
    set_net net ;;
    emit EvNetReshape ;;
    set_batch_size batch_size.

(** Lines 159-161 of Run. *)
Definition grow_to (batch_size : Z) : M unit :=
  s ← get;
  if batch_size_ s <? batch_size then Reshape batch_size else mret tt.

(** std::copy_n(src, n, dst) into a buffer of [length dst] elements. *)
Definition copy_n (src : list float) (dst : list float) : option (list float) :=
  if bool_decide (length src ≤ length dst)%nat
  then Some (src ++ drop (length src) dst)
  else None.

(** One iteration of the input loop of Run (lines 165-181). *)
Definition copy_input (batch_size : Z) (inp : string * Tensor) : M unit :=
  s ← get;
  match input_blob_map_ s !! inp.1 with
  | None =>
      fail (InvalidArgument [Str "Input Tensor "; Str inp.1;
                             Str " does not exist in the network."])
  | Some it =>
      d ← defined (dim_size inp.2 0);
      return_if (negb (d =? batch_size))
        (InvalidArgument [Str "Input Tensor "; Str inp.1;
                          Str " has an incorrect batch size."]) ;;
      (* in.second.flat<float>() *)
      view ← defined (if decide (dtype inp.2 = DT_FLOAT)
                      then Some (tensor_data inp.2) else None);
      let idx := to_uint32 it in
      blob ← defined (blobs (net_ s) !! Z.to_nat idx);
      data ← defined (copy_n view (cpu_data blob));
      set_net (with_blobs (<[Z.to_nat idx := mkBlob (shape blob) data]>
                             (blobs (net_ s))) (net_ s)) ;;
      emit (EvCopyInput idx)
  end.

(** AsTensor<float>({data, n}, shape) (lines 44-56): a flat tensor of the
    first [n] elements of [data], then CHECK(ret.CopyFrom(flat, shape)),
    which needs the shape to hold exactly [n] elements.  A TensorShape with
    a negative dimension is itself a failed CHECK. *)
Definition AsTensor (data : list float) (n : Z) (shape : list Z) : option Tensor :=
  if bool_decide (Z.to_nat n ≤ length data)%nat
     && forallb (λ d, 0 <=? d) shape
     && (foldr Z.mul 1 shape =? n)
  then Some (mkTensor DT_FLOAT shape (take (Z.to_nat n) data))
  else None.

(** One iteration of the output loop of Run (lines 188-201). *)
Definition copy_output (batch_size : Z) (out : string) : M unit :=
  s ← get;
  match output_blob_map_ s !! out with
  | None =>
      fail (InvalidArgument [Str "Specified network output '"; Str out;
                             Str "' does not exist."])
  | Some it =>
      blob ← defined (blobs (net_ s) !! index it);
      channels ← defined (Blob_channels blob);
      let shape := [batch_size; channels] in
      t ← defined (AsTensor (cpu_data blob)
                     (to_uint64 (batch_size * to_uint64 channels)) shape);
      outs ← get_outputs;
      set_outputs (outs ++ [t])
  end.

(** The checks that open Run and the batch size they settle on
    (lines 133-157). *)
Definition request_batch_size (inputs : list (string * Tensor))
    (target_node_names : list string) : M Z :=
  return_if (bool_decide (0 < length target_node_names)%nat)
    (InvalidArgument [Str "target_node_names is not supported by ";
                      Str "the Caffe backend"]) ;;
  s ← get;
  return_if (bool_decide (length inputs = 0)%nat
             || bool_decide (length inputs < size (input_blob_map_ s))%nat)
    (InvalidArgument [Str "Expected ";
                      Num (Z.of_nat (size (input_blob_map_ s)));
                      Str " inputs, but got ";
                      Num (Z.of_nat (length inputs)); Str "."]) ;;
  in0 ← defined (inputs !! 0%nat);
  return_if (dims in0.2 <? 2)
    (InvalidArgument [Str "Could not determine the batch size; ";
                      Str "input must have at least 2 dimensions"]) ;;
  d0 ← defined (dim_size in0.2 0);
  let batch_size := to_uint32 d0 in
  return_if (batch_size <? 1)
    (InvalidArgument [Str "Invalid batch size of "; Num batch_size]) ;;
  mret batch_size.

(** Line 184. *)
Definition forward : M unit :=
  s ← get;
  net ← defined (Net_Forward (net_ s));
  set_net net ;;
  emit EvForward.

(** CaffeServingSession::Run (lines 128-203). *)
Definition Run (inputs : list (string * Tensor))
    (output_tensor_names target_node_names : list string) : M unit :=
  batch_size ← request_batch_size inputs target_node_names;
  grow_to batch_size ;;
  for_each (copy_input batch_size) inputs ;;
  forward ;;
  set_outputs [] ;;
  for_each (copy_output batch_size) output_tensor_names.

(** CaffeServingSession::CopyTrainedLayersFromBinaryProto (lines 205-217). *)
Definition CopyTrainedLayersFromBinaryProto (trained_filename : string) : M unit :=
  match ReadProtoFromBinaryFile trained_filename with
  | None =>
      fail (InvalidArgument
              [Str ("Caffe network failed to load pretrained layers from file: "
                    +:+ trained_filename)])
  | Some param =>
      s ← get;
      net ← defined (Net_CopyTrainedLayersFrom (net_ s) param);
      set_net net ;;
      emit EvCopyTrainedLayers
  end.

(** ** Sequences of calls *)

(** One Run request: the three argument vectors. *)
Record Request : Type := mkRequest {
  req_inputs : list (string * Tensor);
  req_outputs : list string;
  req_targets : list string;
}.

Definition run (r : Request) : M unit :=
  Run (req_inputs r) (req_outputs r) (req_targets r).

(** The public member functions. *)
Inductive Operation : Type :=
  | DoRun (r : Request)
  | DoReshape (batch_size : Z)
  | DoCopyTrainedLayers (trained_filename : string).

Definition perform (op : Operation) : M unit :=
  match op with
  | DoRun r => run r
  | DoReshape b => Reshape b
  | DoCopyTrainedLayers f => CopyTrainedLayersFromBinaryProto f
  end.

(** The calls of [ops] one after the other, whatever status each returns;
    [None] when one of them does not return. *)
Fixpoint perform_all (ops : list Operation) (w : World) : option World :=
  match ops with
  | [] => Some w
  | op :: ops' =>
      match call (perform op) w with
      | Some (_, w') => perform_all ops' w'
      | None => None
      end
  end.

(** The batch size Run settles on for a request, when its opening checks
    pass (so that the call reaches line 159). *)
Definition determined_batch_size (s : CaffeServingSession) (r : Request)
  : option Z :=
  match request_batch_size (req_inputs r) (req_targets r) (mkWorld s [] []) with
  | Done b _ => Some b
  | _ => None
  end.

(** ** The capacity estimate in the specification's words

    The candidates are the leading dimensions of the declared input buffers
    whose shape has more than one dimension and a positive leading
    dimension; the estimate is their maximum, or 1 when there is none. *)
Definition batch_candidates (net : Net) : list Z :=
  omap (λ idx,
          blob ← blobs net !! index idx;
          match shape blob with
          | d0 :: _ :: _ => if 0 <? d0 then Some d0 else None
          | _ => None
          end)
       (input_blob_indices net).

Definition capacity_estimate (net : Net) : Z :=
  match batch_candidates net with
  | [] => 1
  | c :: cs => foldr Z.max c cs
  end.

(** ** Well-formedness *)

(** A blob's dimensions are [int]s. *)
Definition int_shapes (net : Net) : Prop :=
  ∀ blob, blob ∈ blobs net → Forall (λ d, d ≤ INT_MAX) (shape blob).

(** Every declared input index names a blob. *)
Definition inputs_in_range (net : Net) : Prop :=
  ∀ idx, idx ∈ input_blob_indices net → is_Some (blobs net !! index idx).

(** The input buffers Reshape resizes: more than one dimension and a
    positive leading dimension. *)
Definition resizable (blob : Blob) : Prop :=
  (1 < length (shape blob))%nat ∧ 0 < hd 0 (shape blob).

(** [net'] is [net] after the loop of Reshape over the indices [idxs] with
    batch size [b]: every blob named by an index of [idxs] that is
    resizable has its leading dimension set to [b] (the rest of its shape
    is as before), every other blob is untouched, and so is the rest of
    the net. *)
Definition inputs_resized (b : Z) (idxs : list Z) (net net' : Net) : Prop :=
  blob_names net' = blob_names net
  ∧ input_blob_indices net' = input_blob_indices net
  ∧ output_blob_indices net' = output_blob_indices net
  ∧ params net' = params net
  ∧ length (blobs net') = length (blobs net)
  ∧ ∀ i blob, blobs net !! i = Some blob →
      ∃ blob', blobs net' !! i = Some blob'
        ∧ (i ∈ index <$> idxs → resizable blob →
           shape blob' = <[0%nat := b]> (shape blob))
        ∧ (¬ (i ∈ index <$> idxs ∧ resizable blob) → blob' = blob).

Definition is_blob_reshape (e : Event) : Prop :=
  match e with EvBlobReshape _ _ => True | _ => False end.

(** What Caffe's Blob::Reshape guarantees when it returns: the blob has the
    shape asked for, and no dimension of it is negative (it CHECKs each). *)
Definition Blob_Reshape_ok : Prop :=
  ∀ blob new_shape blob',
    Blob_Reshape blob new_shape = Some blob' →
    shape blob' = new_shape ∧ Forall (λ d, 0 ≤ d) new_shape.

(** A request that is malformed on its face: target nodes named, too few
    inputs, or a first input without a usable batch dimension. *)
Definition malformed (s : CaffeServingSession)
    (inputs : list (string * Tensor)) (targets : list string) : Prop :=
  targets ≠ []
  ∨ (length inputs = 0%nat ∨ (length inputs < size (input_blob_map_ s))%nat)
  ∨ (∃ name t, inputs !! 0%nat = Some (name, t) ∧ valid_shape t
               ∧ (dims t < 2 ∨ ∃ d, dim_size t 0 = Some d ∧ d < 1)).

(** An input of Run that passes both checks of the copy loop, and one that
    fails one of them. *)
Definition accepted_input (s : CaffeServingSession) (batch_size : Z)
    (inp : string * Tensor) : Prop :=
  is_Some (input_blob_map_ s !! inp.1) ∧ dim_size inp.2 0 = Some batch_size.

Definition rejected_input (s : CaffeServingSession) (batch_size : Z)
    (inp : string * Tensor) : Prop :=
  input_blob_map_ s !! inp.1 = None
  ∨ ∃ d, dim_size inp.2 0 = Some d ∧ d ≠ batch_size.

(** An accepted input that the copy loop can also copy: a float tensor,
    bound to an index that names a blob whose storage is at least as long
    as the tensor. *)
Definition fits (s : CaffeServingSession) (batch_size : Z)
    (inp : string * Tensor) : Prop :=
  ∃ it blob,
    input_blob_map_ s !! inp.1 = Some it
    ∧ dim_size inp.2 0 = Some batch_size
    ∧ dtype inp.2 = DT_FLOAT
    ∧ blobs (net_ s) !! Z.to_nat (to_uint32 it) = Some blob
    ∧ (length (tensor_data inp.2) ≤ length (cpu_data blob))%nat.

(** The blobs of [n'] have the storage sizes of those of [n]. *)
Definition same_storage (n n' : Net) : Prop :=
  ∀ i, (length ∘ cpu_data) <$> blobs n' !! i
       = (length ∘ cpu_data) <$> blobs n !! i.

(** The tensor Run returns for output name [out] at batch size [b]: shape
    (b, channels) over the first b * channels elements of the bound blob's
    storage. *)
Definition output_tensor (s : CaffeServingSession) (b : Z) (out : string)
    (t : Tensor) : Prop :=
  ∃ it blob c,
    output_blob_map_ s !! out = Some it
    ∧ blobs (net_ s) !! index it = Some blob
    ∧ Blob_channels blob = Some c
    ∧ (Z.to_nat (b * c) ≤ length (cpu_data blob))%nat
    ∧ t = mkTensor DT_FLOAT [b; c] (take (Z.to_nat (b * c)) (cpu_data blob)).




End Adapter.

(** ** A small engine to run the adapter on

    Blobs keep their storage when it is large enough and get zeroed storage
    otherwise; shape propagation gives every blob of rank > 1 the leading
    dimension of blob 0; the forward pass fills each output blob with the
    sum of blob 0's elements. *)
Module Toy.

Definition count (shape : list Z) : Z := foldr Z.mul 1 shape.

Definition Reshape_blob (blob : Blob) (new_shape : list Z) : option Blob :=
  if forallb (λ d, 0 <=? d) new_shape
  then
    let n := Z.to_nat (count new_shape) in
    Some (mkBlob new_shape
            (if bool_decide (length (cpu_data blob) < n)%nat
             then replicate n 0 else cpu_data blob))
  else None.

Definition channels (blob : Blob) : option Z :=
  if bool_decide (length (shape blob) ≤ 4)%nat
  then Some (default 1 (shape blob !! 1%nat))
  else None.

Definition Reshape_net (net : Net) : option Net :=
  match blobs net with
  | [] => Some net
  | b0 :: _ =>
      bs ← mapM (λ b, match shape b with
                      | _ :: (_ :: _) as rest =>
                          Reshape_blob b (hd 0 (shape b0) :: rest)
                      | _ => Some b
                      end) (blobs net);
      Some (with_blobs bs net)
  end.

Definition Forward (net : Net) : option Net :=
  let total := foldr Z.add 0 (default [] (cpu_data <$> blobs net !! 0%nat)) in
  Some (with_blobs
          (foldr (λ idx bs,
                    match bs !! index idx with
                    | Some b =>
                        <[index idx :=
                            mkBlob (shape b)
                                   (replicate (length (cpu_data b)) total)]> bs
                    | None => bs
                    end)
                 (blobs net) (output_blob_indices net))
          net).

Definition CopyTrainedLayersFrom (net param : Net) : option Net :=
  Some (mkNet (blobs net) (blob_names net) (input_blob_indices net)
              (output_blob_indices net) (params param)).

(** A two-blob network: input "data" of shape (batch, 2), output "prob" of
    shape (batch, 3). *)
Definition graph (batch : Z) : Net :=
  mkNet [mkBlob [batch; 2] (replicate (Z.to_nat (batch * 2)) 0);
         mkBlob [batch; 3] (replicate (Z.to_nat (batch * 3)) 0)]
        ["data"; "prob"] [0] [1] [].

Definition ReadProto (filename : string) : option Net :=
  if String.eqb filename "lenet.caffemodel"
  then Some (mkNet [] [] [] [] [mkBlob [2] [5; 6]])
  else None.

Definition engine : Engine := {|
  NetParameter := Net;
  Net_new := Some;
  Blob_Reshape := Reshape_blob;
  Blob_channels := channels;
  Net_Reshape := Reshape_net;
  Net_Forward := Forward;
  Net_CopyTrainedLayersFrom := CopyTrainedLayersFrom;
  ReadProtoFromBinaryFile := ReadProto;
|}.

(** The session the constructor builds from [graph batch], and a world
    around it with nothing in the output vector and nothing yet called. *)
Definition session (batch : Z) : CaffeServingSession :=
  mkSession (graph batch) batch {["data" := 0]} {["prob" := 1]}.

Definition world (batch : Z) : World := mkWorld (session batch) [] [].

Definition tensor (batch : Z) (data : list float) : Tensor :=
  mkTensor DT_FLOAT [batch; 2] data.

(** Two requests' worth of inputs: a batch of 4 and a batch of 1. *)
Definition inputs4 : list (string * Tensor) :=
  [("data", tensor 4 [1; 2; 3; 4; 5; 6; 7; 8])].

Definition inputs1 : list (string * Tensor) := [("data", tensor 1 [7; 8])].



End Toy.

(** ** Device selection (lines 74-99)

    What the two functions see of their surroundings: whether the build is
    CPU_ONLY, what cudaGetDeviceCount reports ([None]: CUDA_CHECK fails and
    ends the process), and Caffe's process-wide mode and device. *)

Inductive Brew : Type := CPU | GPU.

Record CaffeGlobal : Type := mkGlobal {
  mode : Brew;
  device : Z;
}.

(** [for (int i = from; i < from + n; ++i) gpus->push_back(i);] *)
Fixpoint push_range (n : nat) (i : Z) (gpus : list Z) : list Z :=
  match n with
  | O => gpus
  | S n' => push_range n' (i + 1) (gpus ++ [i])
  end.

(** GetGPUs (lines 75-83). *)
Definition GetGPUs (cpu_only : bool) (cudaGetDeviceCount : option Z)
    (gpus : list Z) : option (list Z) :=
  count ← (if cpu_only then Some 0 else cudaGetDeviceCount);
  Some (push_range (Z.to_nat (count - 0)) 0 gpus).

(** TryAssignGPU (lines 85-99): the value returned and the global state
    left. *)
Definition TryAssignGPU (cpu_only : bool) (cudaGetDeviceCount : option Z)
    (g : CaffeGlobal) : option (bool * CaffeGlobal) :=
  gpus ← GetGPUs cpu_only cudaGetDeviceCount [];
  if bool_decide (length gpus ≠ 0%nat)
  then
    d ← gpus !! 0%nat;
    Some (true, mkGlobal GPU d)
  else Some (false, mkGlobal CPU (device g)).

(** The constructor from its first statement on (lines 101-124): line 106
    calls TryAssignGPU() before the net is built. *)
Definition construct `{Engine} (cpu_only : bool)
    (cudaGetDeviceCount : option Z) (g : CaffeGlobal) (graph : NetParameter)
  : option (CaffeServingSession * CaffeGlobal) :=
  r ← TryAssignGPU cpu_only cudaGetDeviceCount g;
  s ← new_session graph;
  Some (s, r.2).

(** ** Words for the properties below *)

(** The first index of [idxs] whose blob carries [name]. *)
Fixpoint first_named (names : list string) (idxs : list Z) (name : string)
  : option Z :=
  match idxs with
  | [] => None
  | idx :: rest =>
      if decide (names !! index idx = Some name) then Some idx
      else first_named names rest name
  end.

Definition is_reshape_event (e : Event) : Prop :=
  match e with EvBlobReshape _ _ | EvNetReshape => True | _ => False end.

(** The copy events of the input loop on [inputs], in order. *)
Definition copy_events (s : CaffeServingSession)
    (inputs : list (string * Tensor)) : list Event :=
  omap (λ inp : string * Tensor,
          (λ it, EvCopyInput (to_uint32 it)) <$> input_blob_map_ s !! inp.1)
       inputs.

(** The blob index the input loop writes [inp] to. *)
Definition target (s : CaffeServingSession) (inp : string * Tensor)
  : option nat :=
  (λ it, Z.to_nat (to_uint32 it)) <$> input_blob_map_ s !! inp.1.

(** A tensor holds as many elements as its shape says. *)
Definition full_tensor (t : Tensor) : Prop :=
  Z.of_nat (length (tensor_data t)) = foldr Z.mul 1 (tensor_shape t).

(** ** Reasoning about the monad *)

Ltac unfold_monad :=
  unfold mbind, M_bind, mret, M_ret, return_if, fail, crash, get, put, emit,
    set_outputs, get_outputs, set_net, set_batch_size, defined in *.

(** [post m Q E w]: if [m] returns from [w], then [Q] holds of a normal
    completion and [E] of an early return. *)
Definition post {A} (m : M A) (Q : A → World → Prop)
    (E : Status → World → Prop) (w : World) : Prop :=
  match m w with
  | Done a w' => Q a w'
  | Fail st w' => E st w'
  | Crash => True
  end.

Section Post.
Context {A B : Type}.
Implicit Types (Q : A → World → Prop) (E : Status → World → Prop).

Lemma post_bind (m : M A) (f : A → M B) (R : B → World → Prop) E w :
  post m (λ a w', post (f a) R E w') E w → post (m ≫= f) R E w.
Proof.
  unfold post, mbind, M_bind. by destruct (m w).
Qed.

Lemma post_weaken (m : M A) Q Q' E E' w :
  post m Q E w →
  (∀ a w', Q a w' → Q' a w') → (∀ st w', E st w' → E' st w') →
  post m Q' E' w.
Proof.
  unfold post. destruct (m w); auto.
Qed.

End Post.

(** A loop keeps what every iteration keeps. *)
Lemma post_for_each {A} (body : A → M unit) (I : World → Prop) E l w :
  I w →
  (∀ x w1, x ∈ l → I w1 → post (body x) (λ _, I) E w1) →
  post (for_each body l) (λ _, I) E w.
Proof.
  revert w. induction l as [|x l IH]; intros w Hw Hbody; simpl.
  - done.
  - apply post_bind. eapply post_weaken.
    + apply Hbody; [left | done].
    + intros ? w' Hw'. apply IH; [done |].
      intros y w1 Hy. apply Hbody. by right.
    + done.
Qed.

Lemma for_each_app {A} (body : A → M unit) l1 l2 w :
  for_each body (l1 ++ l2) w = (for_each body l1 ;; for_each body l2) w.
Proof.
  revert w. induction l1 as [|x l1 IH]; intros w; simpl.
  - done.
  - unfold mbind, M_bind. destruct (body x w) as [[] w'| |]; [apply IH|done..].
Qed.

Lemma call_Some (m : M unit) w st w' :
  call m w = Some (st, w') ↔
  (st = OK ∧ m w = Done tt w') ∨ (m w = Fail st w').
Proof.
  unfold call. destruct (m w) as [[] w1|st1 w1|]; split.
  - intros [= <- <-]. by left.
  - intros [[-> [= ->]]|?]; [done|congruence].
  - intros [= <- <-]. by right.
  - intros [[_ ?]|[= -> ->]]; [congruence|done].
  - done.
  - intros [[_ ?]|?]; congruence.
Qed.

(** ** The opening checks of Run *)

Section Checks.
Context `{Engine}.

(** The checks never touch the world and always return: with a batch size
    when all of them pass, with InvalidArgument as soon as one fails. *)
Lemma request_batch_size_cases inputs targets w :
  match request_batch_size inputs targets w with
  | Done b w' =>
      w' = w ∧ targets = [] ∧
      (size (input_blob_map_ (session w)) ≤ length inputs)%nat ∧
      ∃ in0 d0, inputs !! 0%nat = Some in0 ∧ 2 ≤ dims in0.2 ∧
                dim_size in0.2 0 = Some d0 ∧ b = to_uint32 d0 ∧ 1 ≤ b
  | Fail st w' =>
      w' = w ∧ is_InvalidArgument st ∧
      (targets ≠ [] ∨ inputs = [] ∨
       (length inputs < size (input_blob_map_ (session w)))%nat ∨
       ∃ in0, inputs !! 0%nat = Some in0 ∧
              (dims in0.2 < 2 ∨
               ∃ d0, dim_size in0.2 0 = Some d0 ∧ to_uint32 d0 < 1))
  | Crash => False
  end.
Proof.
  unfold request_batch_size. unfold_monad.
  case_bool_decide as Ht; simpl.
  { refine (conj eq_refl (conj I _)). left. intros ->. simpl in Ht. lia. }
  assert (targets = []) as -> by (destruct targets; [done | simpl in Ht; lia]).
  case_bool_decide as Hn; simpl.
  { refine (conj eq_refl (conj I _)). right; left. by destruct inputs. }
  case_bool_decide as Hlt; simpl.
  { refine (conj eq_refl (conj I _)). auto. }
  destruct inputs as [|in0 inputs']; [done|]. simpl.
  destruct (dims in0.2 <? 2) eqn:Hd; simpl.
  { apply Z.ltb_lt in Hd. refine (conj eq_refl (conj I _)).
    right; right; right. exists in0. auto. }
  apply Z.ltb_ge in Hd.
  destruct (dim_size in0.2 0) as [d0|] eqn:Hd0; simpl.
  2:{ unfold dim_size, dims in *.
      destruct (tensor_shape in0.2); simpl in *; [lia|done]. }
  destruct (to_uint32 d0 <? 1) eqn:Hb; simpl.
  { apply Z.ltb_lt in Hb. refine (conj eq_refl (conj I _)).
    right; right; right. exists in0. split; [done|]. right. eauto. }
  apply Z.ltb_ge in Hb.
  refine (conj eq_refl (conj eq_refl (conj _ _))); [simpl in *; lia|].
  exists in0, d0. auto.
Qed.

Lemma Run_early_return inputs outs targets w st w' :
  request_batch_size inputs targets w = Fail st w' →
  Run inputs outs targets w = Fail st w'.
Proof.
  intros Hr. unfold Run, mbind, M_bind. by rewrite Hr.
Qed.

End Checks.

(** ** Frames: what the loops of Reshape and Run leave alone *)

Lemma no_forward_refl w : no_forward w w.
Proof. exists []. rewrite app_nil_r. split; [done | apply not_elem_of_nil]. Qed.

Lemma no_forward_trans w1 w2 w3 :
  no_forward w1 w2 → no_forward w2 w3 → no_forward w1 w3.
Proof.
  intros (e1 & H1 & N1) (e2 & H2 & N2). exists (e1 ++ e2).
  rewrite H2, H1, app_assoc. split; [done|].
  rewrite elem_of_app. tauto.
Qed.

Lemma quiet_refl w : quiet w w.
Proof. repeat split. apply no_forward_refl. Qed.

Lemma quiet_trans w1 w2 w3 : quiet w1 w2 → quiet w2 w3 → quiet w1 w3.
Proof.
  intros ((Hi1 & Ho1) & Hb1 & Hu1 & Hf1) ((Hi2 & Ho2) & Hb2 & Hu2 & Hf2).
  repeat split; try congruence. by eapply no_forward_trans.
Qed.

Lemma no_forward_emit w s o e :
  e ≠ EvForward → no_forward w (mkWorld s o (trace w ++ [e])).
Proof.
  intros He. exists [e]. split; [done|].
  rewrite list_elem_of_singleton. congruence.
Qed.

Section Frames.
Context `{Engine}.

Lemma reshape_input_quiet b idx w :
  post (reshape_input b idx) (λ _ w', quiet w w') (λ _ _, False) w.
Proof.
  unfold post, reshape_input. unfold_monad. simpl.
  destruct (blobs (net_ (session w)) !! index idx) as [blob|]; simpl; [|done].
  destruct (bool_decide _ && _); simpl; [|apply quiet_refl].
  destruct (Blob_Reshape _ _); simpl; [|done].
  repeat split; simpl. by apply no_forward_emit.
Qed.

Lemma copy_input_cases b inp w :
  match copy_input b inp w with
  | Done _ w' => quiet w w' ∧ accepted_input (session w) b inp
  | Fail st w' =>
      w' = w ∧ is_InvalidArgument st ∧ rejected_input (session w) b inp
  | Crash => accepted_input (session w) b inp ∨ dim_size inp.2 0 = None
  end.
Proof.
  unfold copy_input, accepted_input, rejected_input. unfold_monad. simpl.
  destruct (input_blob_map_ (session w) !! inp.1) as [it|] eqn:Hit; simpl.
  2:{ auto. }
  destruct (dim_size inp.2 0) as [d|] eqn:Hd; simpl; [|by right].
  destruct (d =? b) eqn:Hdb; simpl.
  2:{ apply Z.eqb_neq in Hdb. split; [done|]. split; [done|]. right. eauto. }
  apply Z.eqb_eq in Hdb. subst d.
  assert (is_Some (Some it) ∧ Some b = Some b) as Hacc by (split; [eauto|done]).
  destruct (decide (dtype inp.2 = DT_FLOAT)); simpl; [|by left].
  destruct (blobs (net_ (session w)) !! Z.to_nat (to_uint32 it)); simpl;
    [|by left].
  destruct (copy_n _ _); simpl; [|by left].
  split; [|done]. repeat split; simpl. by apply no_forward_emit.
Qed.

End Frames.

Section Loops.
Context `{Engine}.

Lemma accepted_input_bindings s s' b inp :
  same_bindings s s' → accepted_input s b inp ↔ accepted_input s' b inp.
Proof. intros [Hi _]. unfold accepted_input. by rewrite Hi. Qed.

Lemma rejected_input_bindings s s' b inp :
  same_bindings s s' → rejected_input s b inp ↔ rejected_input s' b inp.
Proof. intros [Hi _]. unfold rejected_input. by rewrite Hi. Qed.

(** No input passes and fails the checks of the copy loop. *)
Lemma accepted_not_rejected s b inp :
  accepted_input s b inp → rejected_input s b inp → False.
Proof.
  intros [[it Hit] Hd] [Hn | (d & Hd' & Hne)]; congruence.
Qed.

Lemma reshape_loop_quiet b idxs w :
  post (for_each (reshape_input b) idxs) (λ _ w', quiet w w') (λ _ _, False) w.
Proof.
  apply post_for_each; [apply quiet_refl|].
  intros idx w1 _ Hq. eapply post_weaken; [apply reshape_input_quiet | |done].
  intros ? w2 Hq2. by eapply quiet_trans.
Qed.

(** Reshape as seen from outside: which capacity it leaves, and that it
    fails exactly on a batch size below 1, before touching anything. *)
Lemma Reshape_cases b w :
  match Reshape b w with
  | Done _ w' =>
      0 < b ∧ same_bindings (session w) (session w')
      ∧ batch_size_ (session w') = b ∧ outputs w' = outputs w
      ∧ no_forward w w'
  | Fail st w' => w' = w ∧ b ≤ 0 ∧ is_InvalidArgument st
  | Crash => 0 < b ∧ b ≠ batch_size_ (session w)
  end.
Proof.
  unfold Reshape. unfold mbind at 1, M_bind at 1, return_if.
  destruct (b <=? 0) eqn:Hb; simpl.
  { apply Z.leb_le in Hb. done. }
  apply Z.leb_gt in Hb.
  unfold mbind at 1, M_bind at 1, get at 1.
  destruct (batch_size_ (session w) =? b) eqn:Heq.
  { apply Z.eqb_eq in Heq. simpl. repeat split; try done.
    apply no_forward_refl. }
  apply Z.eqb_neq in Heq.
  pose proof (reshape_loop_quiet b (input_blob_indices (net_ (session w))) w)
    as Hloop.
  unfold post in Hloop. unfold mbind at 1, M_bind at 1.
  destruct (for_each _ _ w) as [[] w1| |]; [|done|auto].
  destruct Hloop as ((Hi & Ho) & Hcap & Hout & Hnf).
  unfold_monad. simpl.
  destruct (Net_Reshape (net_ (session w1))) as [net|]; simpl; [|auto].
  repeat split; try done.
  eapply no_forward_trans; [exact Hnf|].
  apply no_forward_trans with
    (mkWorld (session w1) (outputs w1) (trace w1 ++ [EvNetReshape]));
    [by apply no_forward_emit|].
  simpl. exists []. simpl. rewrite app_nil_r.
  split; [done | apply not_elem_of_nil].
Qed.

Lemma Reshape_same b w :
  0 < b → batch_size_ (session w) = b → Reshape b w = Done tt w.
Proof.
  intros Hb Heq. unfold Reshape. unfold_monad.
  destruct (b <=? 0) eqn:Hle; [apply Z.leb_le in Hle; lia|].
  simpl. apply Z.eqb_eq in Heq. by rewrite Heq.
Qed.

(** Lines 159-161: afterwards the capacity is the larger of the old one and
    the batch size. *)
Lemma grow_to_cases b w :
  1 ≤ b →
  match grow_to b w with
  | Done _ w' =>
      same_bindings (session w) (session w')
      ∧ batch_size_ (session w') = Z.max (batch_size_ (session w)) b
      ∧ outputs w' = outputs w ∧ no_forward w w'
      ∧ (b ≤ batch_size_ (session w) → w' = w)
  | Fail _ _ => False
  | Crash => batch_size_ (session w) < b
  end.
Proof.
  intros Hb. unfold grow_to. unfold mbind, M_bind, get.
  destruct (batch_size_ (session w) <? b) eqn:Hlt.
  - apply Z.ltb_lt in Hlt. pose proof (Reshape_cases b w) as HR.
    destruct (Reshape b w) as [[] w'|st w'|].
    + destruct HR as (_ & Hs & Hc & Ho & Hn).
      repeat split; try apply Hs; try done; lia.
    + lia.
    + done.
  - apply Z.ltb_ge in Hlt. simpl. repeat split; try done; try lia.
    apply no_forward_refl.
Qed.

(** The input loop of Run: it completes when every input passes its two
    checks, and returns InvalidArgument at the first one that does not. *)
Lemma copy_inputs_cases b inputs w :
  match for_each (copy_input b) inputs w with
  | Done _ w' => quiet w w' ∧ Forall (accepted_input (session w) b) inputs
  | Fail st w' =>
      quiet w w' ∧ is_InvalidArgument st
      ∧ Exists (rejected_input (session w) b) inputs
  | Crash => True
  end.
Proof.
  revert w. induction inputs as [|inp inputs IH]; intros w; simpl.
  { split; [apply quiet_refl | constructor]. }
  unfold mbind, M_bind.
  pose proof (copy_input_cases b inp w) as Hc.
  destruct (copy_input b inp w) as [[] w1|st w1|]; [| |done].
  - destruct Hc as [Hq Hacc]. specialize (IH w1).
    destruct (for_each _ inputs w1) as [[] w2|st w2|]; [| |done].
    + destruct IH as [Hq2 Hall]. split; [by eapply quiet_trans|].
      constructor; [done|].
      eapply Forall_impl; [exact Hall|]. intros x.
      apply (accepted_input_bindings _ _ _ _ (proj1 Hq)).
    + destruct IH as (Hq2 & Hst & Hex). split; [by eapply quiet_trans|].
      split; [done|]. right.
      eapply Exists_impl; [exact Hex|]. intros x.
      apply (rejected_input_bindings _ _ _ _ (proj1 Hq)).
  - destruct Hc as (-> & Hst & Hrej). split; [apply quiet_refl|].
    split; [done|]. by left.
Qed.

End Loops.

Section Outputs.
Context `{Engine}.

Lemma AsTensor_Some data b c t :
  AsTensor data (to_uint64 (b * to_uint64 c)) [b; c] = Some t →
  (Z.to_nat (b * c) ≤ length data)%nat
  ∧ t = mkTensor DT_FLOAT [b; c] (take (Z.to_nat (b * c)) data).
Proof.
  unfold AsTensor. simpl. rewrite Z.mul_1_r.
  destruct (bool_decide _ && _ && _) eqn:Hc; [|done].
  apply andb_true_iff in Hc as [[Hlen _]%andb_true_iff Hn].
  apply bool_decide_eq_true in Hlen. apply Z.eqb_eq in Hn.
  rewrite <- Hn in *. by intros [= <-].
Qed.

Lemma copy_output_cases b out w :
  match copy_output b out w with
  | Done _ w' =>
      ∃ t, w' = mkWorld (session w) (outputs w ++ [t]) (trace w)
           ∧ output_tensor (session w) b out t
  | Fail st w' =>
      w' = w ∧ is_InvalidArgument st ∧ output_blob_map_ (session w) !! out = None
  | Crash => True
  end.
Proof.
  unfold copy_output, output_tensor. unfold_monad. simpl.
  destruct (output_blob_map_ (session w) !! out) as [it|] eqn:Hit; simpl;
    [|done].
  destruct (blobs (net_ (session w)) !! index it) as [blob|] eqn:Hb; simpl;
    [|done].
  destruct (Blob_channels blob) as [c|] eqn:Hc; simpl; [|done].
  destruct (AsTensor _ _ _) as [t|] eqn:Ht; simpl; [|done].
  apply AsTensor_Some in Ht as [Hlen ->].
  eexists. split; [done|]. exists it, blob, c. auto.
Qed.

(** The output loop appends one tensor per name, in the order of the names,
    and touches nothing else. *)
Lemma copy_outputs_cases b names w :
  match for_each (copy_output b) names w with
  | Done _ w' =>
      ∃ ts, w' = mkWorld (session w) (outputs w ++ ts) (trace w)
            ∧ Forall2 (output_tensor (session w) b) names ts
  | Fail st w' =>
      session w' = session w ∧ trace w' = trace w ∧ is_InvalidArgument st
      ∧ ∃ out, out ∈ names ∧ output_blob_map_ (session w) !! out = None
  | Crash => True
  end.
Proof.
  revert w. induction names as [|out names IH]; intros w; simpl.
  { exists []. rewrite app_nil_r. split; [by destruct w | constructor]. }
  unfold mbind, M_bind.
  pose proof (copy_output_cases b out w) as Hc.
  destruct (copy_output b out w) as [[] w1|st w1|]; [| |done].
  - destruct Hc as (t & -> & Ht). specialize (IH (mkWorld (session w)
      (outputs w ++ [t]) (trace w))). simpl in IH.
    destruct (for_each _ names _) as [[] w2|st w2|]; [| |done].
    + destruct IH as (ts & -> & Hts). exists (t :: ts).
      rewrite <- app_assoc. split; [done|]. by constructor.
    + destruct IH as (Hs & Ht' & Hst & out' & Hin & Hnone).
      repeat split; try done. exists out'. split; [by right | done].
  - destruct Hc as (-> & Hst & Hnone). repeat split; try done.
    exists out. split; [by left | done].
Qed.

Lemma forward_cases w :
  match forward w with
  | Done _ w' =>
      same_bindings (session w) (session w')
      ∧ batch_size_ (session w') = batch_size_ (session w)
      ∧ outputs w' = outputs w
      ∧ trace w' = trace w ++ [EvForward]
      ∧ Net_Forward (net_ (session w)) = Some (net_ (session w'))
  | Fail _ _ => False
  | Crash => True
  end.
Proof.
  unfold forward. unfold_monad. simpl.
  by destruct (Net_Forward (net_ (session w))).
Qed.

End Outputs.

(** ** When the input loop returns *)

Section Fits.
Context `{Engine}.

Lemma fits_accepted s b inp : fits s b inp → accepted_input s b inp.
Proof. intros (it & blob & Hit & Hd & _). split; [eauto | done]. Qed.

Lemma fits_preserved s s' b inp :
  same_bindings s s' → same_storage (net_ s) (net_ s') →
  fits s b inp → fits s' b inp.
Proof.
  intros [Hi _] Hst (it & blob & Hit & Hd & Hf & Hb & Hlen).
  specialize (Hst (Z.to_nat (to_uint32 it))). rewrite Hb in Hst.
  destruct (blobs (net_ s') !! Z.to_nat (to_uint32 it)) as [blob'|] eqn:Hb';
    [|done].
  simpl in Hst. injection Hst as Hst.
  exists it, blob'. rewrite Hi. repeat split; try done. lia.
Qed.

(** An input that fits is copied: the call completes, and changes neither
    a binding nor the size of any blob's storage. *)
Lemma copy_input_fits b inp w :
  fits (session w) b inp →
  ∃ w', copy_input b inp w = Done tt w'
        ∧ same_bindings (session w) (session w')
        ∧ same_storage (net_ (session w)) (net_ (session w')).
Proof.
  intros (it & blob & Hit & Hd & Hf & Hb & Hlen).
  unfold copy_input. unfold_monad. simpl. rewrite Hit, Hd. simpl.
  rewrite Z.eqb_refl. simpl.
  destruct (decide (dtype inp.2 = DT_FLOAT)); [|done]. simpl.
  rewrite Hb. simpl. unfold copy_n.
  rewrite bool_decide_eq_true_2 by done. simpl.
  eexists. split; [done|]. split; [done|]. simpl.
  intros i. unfold with_blobs. simpl.
  destruct (decide (i = Z.to_nat (to_uint32 it))) as [-> | Hne].
  - rewrite list_lookup_insert_eq by (by eapply lookup_lt_Some).
    rewrite Hb. simpl. f_equal. rewrite length_app, length_drop. lia.
  - by rewrite list_lookup_insert_ne.
Qed.

Lemma copy_inputs_fit b pre w :
  Forall (fits (session w) b) pre →
  ∃ w', for_each (copy_input b) pre w = Done tt w'
        ∧ same_bindings (session w) (session w').
Proof.
  revert w. induction pre as [|inp pre IH]; intros w Hall; simpl.
  { by exists w. }
  apply Forall_cons in Hall as [Hinp Hpre].
  destruct (copy_input_fits b inp w Hinp) as (w1 & Hc & Hs & Hst).
  destruct (IH w1) as (w2 & Hrest & Hs2).
  { eapply Forall_impl; [exact Hpre|]. intros x. by apply fits_preserved. }
  exists w2. unfold mbind, M_bind. rewrite Hc. split; [done|].
  destruct Hs as [? ?], Hs2 as [? ?]. split; congruence.
Qed.

(** Run returns, with InvalidArgument, as soon as its opening checks pass,
    the capacity growth returns, the inputs ahead of the first rejected one
    fit their blobs, and one input is rejected. *)
Lemma Run_returns_at_rejected inputs names targets w b w1 pre inp post :
  request_batch_size inputs targets w = Done b w →
  grow_to b w = Done tt w1 →
  inputs = pre ++ inp :: post →
  Forall (fits (session w1) b) pre →
  rejected_input (session w1) b inp →
  ∃ st w', Run inputs names targets w = Fail st w'.
Proof.
  intros Hreq Hg -> Hpre Hrej.
  destruct (copy_inputs_fit b pre w1 Hpre) as (w2 & Hcopy & Hs).
  pose proof (copy_input_cases b inp w2) as Hc.
  apply (rejected_input_bindings _ _ _ _ Hs) in Hrej.
  assert (∃ st, copy_input b inp w2 = Fail st w2) as [st Hfail].
  { unfold copy_input, rejected_input in *. unfold_monad. simpl.
    destruct Hrej as [Hnone | (d & Hd & Hne)].
    - rewrite Hnone. eauto.
    - destruct (input_blob_map_ (session w2) !! inp.1); [|eauto].
      rewrite Hd. simpl. apply Z.eqb_neq in Hne. rewrite Hne. simpl. eauto. }
  exists st, w2. unfold Run. unfold mbind at 1, M_bind at 1. rewrite Hreq.
  unfold mbind at 1, M_bind at 1. rewrite Hg.
  unfold mbind at 1, M_bind at 1. rewrite for_each_app.
  unfold mbind at 1, M_bind at 1. rewrite Hcopy. simpl.
  unfold mbind at 1, M_bind at 1. by rewrite Hfail.
Qed.

End Fits.

(** ** Run, stage by stage *)

Section Stages.
Context `{Engine}.

(** How a returning Run got there: through all five stages, or out of the
    opening checks, the input loop or the output loop. *)
Lemma Run_cases inputs names targets w :
  match Run inputs names targets w with
  | Done _ w' =>
      ∃ b w1 w2 w3,
        request_batch_size inputs targets w = Done b w
        ∧ grow_to b w = Done tt w1
        ∧ for_each (copy_input b) inputs w1 = Done tt w2
        ∧ forward w2 = Done tt w3
        ∧ for_each (copy_output b) names
            (mkWorld (session w3) [] (trace w3)) = Done tt w'
  | Fail st w' =>
      request_batch_size inputs targets w = Fail st w'
      ∨ (∃ b w1,
           request_batch_size inputs targets w = Done b w
           ∧ grow_to b w = Done tt w1
           ∧ for_each (copy_input b) inputs w1 = Fail st w')
      ∨ (∃ b w1 w2 w3,
           request_batch_size inputs targets w = Done b w
           ∧ grow_to b w = Done tt w1
           ∧ for_each (copy_input b) inputs w1 = Done tt w2
           ∧ forward w2 = Done tt w3
           ∧ for_each (copy_output b) names
               (mkWorld (session w3) [] (trace w3)) = Fail st w')
  | Crash => True
  end.
Proof.
  unfold Run. unfold mbind at 1, M_bind at 1.
  pose proof (request_batch_size_cases inputs targets w) as Hr.
  destruct (request_batch_size inputs targets w) as [b w0|st w0|] eqn:Hreq;
    [| |done].
  2:{ by left. }
  destruct Hr as (-> & _ & _ & in0 & d0 & _ & _ & _ & _ & Hb).
  unfold mbind at 1, M_bind at 1.
  pose proof (grow_to_cases b w Hb) as Hg.
  destruct (grow_to b w) as [[] w1|st w1|] eqn:Hgrow; [|done|done].
  unfold mbind at 1, M_bind at 1.
  destruct (for_each (copy_input b) inputs w1) as [[] w2|st w2|] eqn:Hin;
    [| |done].
  2:{ right; left. by exists b, w1. }
  unfold mbind at 1, M_bind at 1.
  pose proof (forward_cases w2) as Hf.
  destruct (forward w2) as [[] w3|st w3|] eqn:Hfw; [|done|done].
  unfold mbind at 1, M_bind at 1. unfold set_outputs at 1.
  destruct (for_each (copy_output b) names _) as [[] w4|st w4|] eqn:Hout;
    [| |done].
  - by exists b, w1, w2, w3.
  - right; right. by exists b, w1, w2, w3.
Qed.

(** Run never changes the bindings, and leaves as capacity the larger of
    the old capacity and the batch size of the request, if it has one. *)
Lemma Run_capacity inputs names targets w st w' :
  call (Run inputs names targets) w = Some (st, w') →
  same_bindings (session w) (session w')
  ∧ batch_size_ (session w') =
      match request_batch_size inputs targets w with
      | Done b _ => Z.max (batch_size_ (session w)) b
      | _ => batch_size_ (session w)
      end.
Proof.
  intros Hcall. apply call_Some in Hcall.
  pose proof (Run_cases inputs names targets w) as HR.
  pose proof (request_batch_size_cases inputs targets w) as Hr.
  assert (∀ b w1 w2, request_batch_size inputs targets w = Done b w →
            grow_to b w = Done tt w1 → quiet w1 w2 →
            same_bindings (session w) (session w2)
            ∧ batch_size_ (session w2) = Z.max (batch_size_ (session w)) b)
    as Hstep.
  { intros b w1 w2 Hb Hg ((Hi2 & Ho2) & Hc2 & _). rewrite Hb in Hr.
    destruct Hr as (_ & _ & _ & _ & _ & _ & _ & _ & _ & Hb1).
    pose proof (grow_to_cases b w Hb1) as Hgc. rewrite Hg in Hgc.
    destruct Hgc as ((Hi1 & Ho1) & Hc1 & _).
    split; [split|]; congruence. }
  destruct Hcall as [[-> Hrun] | Hrun]; rewrite Hrun in HR.
  - destruct HR as (b & w1 & w2 & w3 & Hb & Hg & Hin & Hfw & Hout).
    rewrite Hb.
    pose proof (copy_inputs_cases b inputs w1) as Hic. rewrite Hin in Hic.
    destruct Hic as [Hq _].
    pose proof (forward_cases w2) as Hfc. rewrite Hfw in Hfc.
    destruct Hfc as (Hs3 & Hc3 & _).
    pose proof (copy_outputs_cases b names (mkWorld (session w3) [] (trace w3)))
      as Hoc. rewrite Hout in Hoc. destruct Hoc as (ts & -> & _). simpl.
    destruct (Hstep b w1 w2 Hb Hg Hq) as [[Hi Ho] Hc].
    destruct Hs3 as [Hi3 Ho3]. split; [split|]; congruence.
  - destruct HR as [Hfail | [(b & w1 & Hb & Hg & Hin) |
                             (b & w1 & w2 & w3 & Hb & Hg & Hin & Hfw & Hout)]].
    + rewrite Hfail in *. destruct Hr as (-> & _). by split.
    + rewrite Hb.
      pose proof (copy_inputs_cases b inputs w1) as Hic. rewrite Hin in Hic.
      destruct Hic as [Hq _]. by apply (Hstep b w1).
    + rewrite Hb.
      pose proof (copy_inputs_cases b inputs w1) as Hic. rewrite Hin in Hic.
      destruct Hic as [Hq _].
      pose proof (forward_cases w2) as Hfc. rewrite Hfw in Hfc.
      destruct Hfc as (Hs3 & Hc3 & _).
      pose proof (copy_outputs_cases b names
                    (mkWorld (session w3) [] (trace w3))) as Hoc.
      rewrite Hout in Hoc. destruct Hoc as (Hs4 & _). simpl in Hs4.
      destruct (Hstep b w1 w2 Hb Hg Hq) as [[Hi Ho] Hc].
      destruct Hs3 as [Hi3 Ho3]. rewrite Hs4. split; [split|]; congruence.
Qed.

End Stages.

(** ** The toy engine at work *)

Example Toy_new_session_1 :
  new_session (H := Toy.engine) (Toy.graph 1) = Some (Toy.session 1).
Proof. vm_compute. reflexivity. Qed.

Example Toy_new_session_4 :
  new_session (H := Toy.engine) (Toy.graph 4) = Some (Toy.session 4).
Proof. vm_compute. reflexivity. Qed.

(** The end-to-end scenario in small: capacity 1, a batch of 4 arrives,
    the net is reshaped to 4 and one (4, 3) tensor comes back. *)
Example Toy_Run_batch_4 :
  (λ r, (r.1, batch_size_ (session r.2), outputs r.2, trace r.2)) <$>
    call (Run (H := Toy.engine)
            [("data", Toy.tensor 4 [1; 2; 3; 4; 5; 6; 7; 8])] ["prob"] [])
         (Toy.world 1)
  = Some (OK, 4,
          [mkTensor DT_FLOAT [4; 3] (replicate 12 36)],
          [EvBlobReshape 0 [4; 2]; EvNetReshape; EvCopyInput 0; EvForward]).
Proof. vm_compute. reflexivity. Qed.

(** ** The claims *)

Section Claims.
Context `{Engine}.

Lemma malformed_rejected inputs names targets w :
  malformed (session w) inputs targets →
  ∃ msg, call (Run inputs names targets) w = Some (InvalidArgument msg, w).
Proof.
  intros Hbad.
  pose proof (request_batch_size_cases inputs targets w) as Hr.
  destruct (request_batch_size inputs targets w) as [b w0|st w0|] eqn:Hreq;
    [| |done].
  - exfalso.
    destruct Hr as (_ & -> & Hsize & in0 & d0 & Hin0 & Hdims & Hd0 & -> & Hb).
    destruct Hbad as [? | [[Hz | Hlt] | (name & t & Hin & Hv & Hsmall)]].
    + done.
    + apply length_zero_iff_nil in Hz. by subst inputs.
    + lia.
    + rewrite Hin0 in Hin. injection Hin as ->. simpl in *.
      destruct Hsmall as [? | (d & Hd & Hd1)]; [lia|].
      rewrite Hd0 in Hd. injection Hd as ->.
      assert (0 ≤ d) as Hnn.
      { unfold valid_shape, dim_size in *.
        eapply (Forall_lookup_1 _ _ _ _ Hv Hd0). }
      assert (d = 0) as -> by lia.
      change (to_uint32 0) with 0 in Hb. lia.
  - destruct Hr as (-> & Hst & _). destruct st as [|msg]; [done|].
    exists msg. unfold call. by rewrite (Run_early_return _ _ _ _ _ _ Hreq).
Qed.

(** C6: Run rejects with InvalidArgument, without calling the engine at all
    (so without a forward pass) and without touching the session: (1) every
    request with a non-empty target_node_names; (2) every request with no
    input or with fewer inputs than there are input bindings; (3) every
    request whose first input tensor has fewer than 2 dimensions or a
    leading dimension below 1. *)
Theorem Run_rejects_malformed inputs names targets w :
  targets ≠ []
  ∨ (length inputs = 0%nat
     ∨ (length inputs < size (input_blob_map_ (session w)))%nat)
  ∨ (∃ name t, inputs !! 0%nat = Some (name, t) ∧ valid_shape t
               ∧ (dims t < 2 ∨ ∃ d, dim_size t 0 = Some d ∧ d < 1)) →
  ∃ msg, call (Run inputs names targets) w = Some (InvalidArgument msg, w).
Proof. apply malformed_rejected. Qed.

(** C10: when the trained-parameter file cannot be read or parsed, the
    weight loader returns InvalidArgument and leaves the whole session (the
    net's blobs and parameters included) as it was; the engine's copy is
    never called. *)
Theorem CopyTrainedLayers_unreadable trained_filename w :
  ReadProtoFromBinaryFile trained_filename = None →
  ∃ msg, call (CopyTrainedLayersFromBinaryProto trained_filename) w
         = Some (InvalidArgument msg, w).
Proof.
  intros Hread. unfold call, CopyTrainedLayersFromBinaryProto.
  rewrite Hread. simpl. eauto.
Qed.

(** C9: once Reshape(c) with c >= 1 has returned, a second Reshape(c)
    returns OK and leaves the world (capacity and every blob shape) exactly
    as the first call left it. *)
Theorem Reshape_twice c w st w1 :
  1 ≤ c →
  call (Reshape c) w = Some (st, w1) →
  st = OK ∧ batch_size_ (session w1) = c
  ∧ call (Reshape c) w1 = Some (OK, w1).
Proof.
  intros Hc Hcall. apply call_Some in Hcall.
  pose proof (Reshape_cases c w) as HR.
  destruct Hcall as [[-> Hrun] | Hrun]; rewrite Hrun in HR.
  - destruct HR as (_ & _ & Hcap & _). split; [done|]. split; [done|].
    unfold call. rewrite Reshape_same; [done | lia | done].
  - destruct HR as (_ & Hle & _). lia.
Qed.

End Claims.

Lemma Run_rejects_malformed_witness :
  ∃ msg, call (Run (H := Toy.engine) [("data", mkTensor DT_FLOAT [0; 2] [])]
                   ["prob"] [])
              (Toy.world 1)
         = Some (InvalidArgument msg, Toy.world 1).
Proof.
  apply (Run_rejects_malformed (H := Toy.engine)).
  right; right. exists "data", (mkTensor DT_FLOAT [0; 2] []).
  split; [reflexivity|]. split.
  - unfold valid_shape. simpl. repeat constructor; lia.
  - right. exists 0. split; [reflexivity | lia].
Defined.

Lemma CopyTrainedLayers_unreadable_witness :
  ∃ msg, call (CopyTrainedLayersFromBinaryProto (H := Toy.engine)
                 "no-such-file.caffemodel")
              (Toy.world 1)
         = Some (InvalidArgument msg, Toy.world 1).
Proof.
  apply (CopyTrainedLayers_unreadable (H := Toy.engine)). reflexivity.
Defined.

Lemma Reshape_twice_witness :
  ∃ w1, call (Reshape (H := Toy.engine) 4) (Toy.world 1) = Some (OK, w1)
        ∧ batch_size_ (session w1) = 4
        ∧ call (Reshape (H := Toy.engine) 4) w1 = Some (OK, w1).
Proof.
  eexists. split; [vm_compute; reflexivity|].
  eapply (Reshape_twice (H := Toy.engine) 4 (Toy.world 1) OK);
    [lia | vm_compute; reflexivity].
Defined.

Section RunClaims.
Context `{Engine}.

(** What a completed input loop says about the first input: its leading
    dimension is the batch size itself (nothing was lost in the conversion
    to unsigned int). *)
Lemma first_input_batch inputs targets w b w1 w2 :
  request_batch_size inputs targets w = Done b w →
  same_bindings (session w) (session w1) →
  for_each (copy_input b) inputs w1 = Done tt w2 →
  (∀ inp, inp ∈ inputs → accepted_input (session w) b inp)
  ∧ ∃ in0, inputs !! 0%nat = Some in0 ∧ dim_size in0.2 0 = Some b ∧ 1 ≤ b.
Proof.
  intros Hreq Hsame Hin.
  pose proof (request_batch_size_cases inputs targets w) as Hr.
  rewrite Hreq in Hr.
  destruct Hr as (_ & _ & _ & in0 & d0 & Hin0 & _ & Hd0 & Hb & Hb1).
  pose proof (copy_inputs_cases b inputs w1) as Hic. rewrite Hin in Hic.
  destruct Hic as [_ Hall]. rewrite Forall_forall in Hall.
  assert (∀ inp, inp ∈ inputs → accepted_input (session w) b inp) as Hacc.
  { intros inp Hinp. apply (accepted_input_bindings _ _ _ _ Hsame).
    by apply Hall. }
  split; [done|]. exists in0. split; [done|]. split; [|done].
  apply Hacc. by eapply list_elem_of_lookup_2.
Qed.

Lemma batch_mismatch_rejected inputs names targets w in0 d0 inp d :
  inputs !! 0%nat = Some in0 → dim_size in0.2 0 = Some d0 →
  inp ∈ inputs → dim_size inp.2 0 = Some d → d ≠ to_uint32 d0 →
  is_Some (call (Run inputs names targets) w) →
  ∃ msg w', call (Run inputs names targets) w = Some (InvalidArgument msg, w')
            ∧ no_forward w w'.
Proof.
  intros Hin0 Hd0 Hinp Hd Hne [[st w'] Hcall].
  pose proof (Run_cases inputs names targets w) as HR.
  pose proof (request_batch_size_cases inputs targets w) as Hr.
  assert (∀ b w1 w2, request_batch_size inputs targets w = Done b w →
            grow_to b w = Done tt w1 →
            for_each (copy_input b) inputs w1 = Done tt w2 → False) as Hno.
  { intros b w1 w2 Hreq Hg Hloop. rewrite Hreq in Hr.
    destruct Hr as (_ & _ & _ & in0' & d0' & Hin0' & _ & Hd0' & Hb & Hb1).
    assert (in0' = in0) as -> by congruence.
    assert (d0' = d0) as -> by congruence.
    pose proof (grow_to_cases b w Hb1) as Hgc. rewrite Hg in Hgc.
    destruct Hgc as (Hsame & _).
    destruct (first_input_batch _ _ _ _ _ _ Hreq Hsame Hloop) as [Hacc _].
    destruct (Hacc inp Hinp) as [_ Hdb]. congruence. }
  rewrite Hcall. apply call_Some in Hcall.
  destruct Hcall as [[-> Hrun] | Hrun]; rewrite Hrun in HR.
  - destruct HR as (b & w1 & w2 & w3 & Hreq & Hg & Hloop & _).
    destruct (Hno b w1 w2 Hreq Hg Hloop).
  - destruct HR as [Hfail | [(b & w1 & Hreq & Hg & Hloop) |
                             (b & w1 & w2 & w3 & Hreq & Hg & Hloop & _)]].
    + rewrite Hfail in Hr. destruct Hr as (-> & Hst & _).
      destruct st as [|msg]; [done|]. exists msg, w.
      split; [done | apply no_forward_refl].
    + pose proof (copy_inputs_cases b inputs w1) as Hic.
      rewrite Hloop in Hic. destruct Hic as (Hq & Hst & _).
      rewrite Hreq in Hr.
      destruct Hr as (_ & _ & _ & _ & _ & _ & _ & _ & _ & Hb1).
      pose proof (grow_to_cases b w Hb1) as Hgc. rewrite Hg in Hgc.
      destruct Hgc as (_ & _ & _ & Hnf & _).
      destruct st as [|msg]; [done|]. exists msg, w'. split; [done|].
      eapply no_forward_trans; [exact Hnf | apply Hq].
    + destruct (Hno b w1 w2 Hreq Hg Hloop).
Qed.

(** C7: when some input's leading dimension differs from the batch size
    taken from the first input, every Run call that returns at all returns
    InvalidArgument, and no forward pass has been made.  (Whether the
    input names are bound plays no part: an unbound name is rejected too.)
    And the call does return once the capacity growth of lines 159-161
    returns and the inputs listed ahead of the first rejected one fit the
    blobs they are bound to. *)
Theorem Run_batch_mismatch inputs names targets w in0 d0 inp d :
  inputs !! 0%nat = Some in0 → dim_size in0.2 0 = Some d0 →
  inp ∈ inputs → dim_size inp.2 0 = Some d → d ≠ to_uint32 d0 →
  (is_Some (call (Run inputs names targets) w) →
   ∃ msg w', call (Run inputs names targets) w = Some (InvalidArgument msg, w')
             ∧ no_forward w w')
  ∧ (∀ w1 pre x post,
       grow_to (to_uint32 d0) w = Done tt w1 →
       inputs = pre ++ x :: post →
       Forall (fits (session w1) (to_uint32 d0)) pre →
       rejected_input (session w1) (to_uint32 d0) x →
       is_Some (call (Run inputs names targets) w)).
Proof.
  intros Hin0 Hd0 Hinp Hd Hne. split.
  { by eapply batch_mismatch_rejected. }
  intros w1 pre x post Hg Hsplit Hpre Hrej.
  pose proof (request_batch_size_cases inputs targets w) as Hr.
  destruct (request_batch_size inputs targets w) as [b w0|st w0|] eqn:Hreq;
    [| |done].
  - destruct Hr as (-> & _ & _ & in0' & d0' & Hin0' & _ & Hd0' & -> & _).
    assert (in0' = in0) as -> by congruence.
    assert (d0' = d0) as -> by congruence.
    destruct (Run_returns_at_rejected inputs names targets w _ w1 pre x post
                Hreq Hg Hsplit Hpre Hrej) as (st & w' & Hrun).
    unfold call. rewrite Hrun. eauto.
  - unfold call. rewrite (Run_early_return _ _ _ _ _ _ Hreq). eauto.
Qed.

(** A Run call that returns OK for the output names o_1..o_k at batch
    size b (the leading dimension of the first input) leaves exactly k
    tensors in the output vector, the i-th built from the blob bound to
    o_i: shape (b, what channels() gave for that blob), filled with the
    first b * channels elements of the blob's storage. *)
Theorem Run_outputs inputs names targets w w' :
  call (Run inputs names targets) w = Some (OK, w') →
  ∃ in0 b,
    inputs !! 0%nat = Some in0 ∧ dim_size in0.2 0 = Some b ∧ 1 ≤ b
    ∧ length (outputs w') = length names
    ∧ Forall2 (output_tensor (session w') b) names (outputs w').
Proof.
  intros Hcall. apply call_Some in Hcall.
  pose proof (Run_cases inputs names targets w) as HR.
  destruct Hcall as [[_ Hrun] | Hrun]; rewrite Hrun in HR.
  2:{ pose proof (request_batch_size_cases inputs targets w) as Hr.
      destruct HR as [Hfail | [(b & w1 & Hreq & Hg & Hloop) |
                               (b & w1 & w2 & w3 & _ & _ & _ & _ & Hout)]].
      - rewrite Hfail in Hr. by destruct Hr as (_ & ? & _).
      - pose proof (copy_inputs_cases b inputs w1) as Hic.
        rewrite Hloop in Hic. by destruct Hic as (_ & ? & _).
      - pose proof (copy_outputs_cases b names
                      (mkWorld (session w3) [] (trace w3))) as Hoc.
        rewrite Hout in Hoc. by destruct Hoc as (_ & _ & ? & _). }
  destruct HR as (b & w1 & w2 & w3 & Hreq & Hg & Hloop & Hfw & Hout).
  pose proof (request_batch_size_cases inputs targets w) as Hr.
  rewrite Hreq in Hr. destruct Hr as (_ & _ & _ & _ & _ & _ & _ & _ & _ & Hb1).
  pose proof (grow_to_cases b w Hb1) as Hgc. rewrite Hg in Hgc.
  destruct Hgc as (Hsame & _).
  destruct (first_input_batch _ _ _ _ _ _ Hreq Hsame Hloop)
    as (_ & in0 & Hin0 & Hd0 & _).
  pose proof (copy_outputs_cases b names (mkWorld (session w3) [] (trace w3)))
    as Hoc. rewrite Hout in Hoc. simpl in Hoc.
  destruct Hoc as (ts & -> & Hts). simpl.
  exists in0, b. repeat split; try done.
  symmetry. by eapply Forall2_length.
Qed.


End RunClaims.

Lemma Run_batch_mismatch_witness :
  ∃ msg w',
    call (Run (H := Toy.engine)
            [("data", Toy.tensor 4 [1; 2; 3; 4; 5; 6; 7; 8]);
             ("data", Toy.tensor 5 [1; 2; 3; 4; 5; 6; 7; 8; 9; 10])]
            ["prob"] [])
         (Toy.world 1)
    = Some (InvalidArgument msg, w')
    ∧ no_forward (Toy.world 1) w'.
Proof.
  destruct (Run_batch_mismatch (H := Toy.engine)
              [("data", Toy.tensor 4 [1; 2; 3; 4; 5; 6; 7; 8]);
               ("data", Toy.tensor 5 [1; 2; 3; 4; 5; 6; 7; 8; 9; 10])]
              ["prob"] [] (Toy.world 1)
              ("data", Toy.tensor 4 [1; 2; 3; 4; 5; 6; 7; 8]) 4
              ("data", Toy.tensor 5 [1; 2; 3; 4; 5; 6; 7; 8; 9; 10]) 5)
    as [Hrejected Hreturns].
  - reflexivity.
  - reflexivity.
  - right. left.
  - reflexivity.
  - vm_compute. discriminate.
  - apply Hrejected.
    eapply (Hreturns _ [("data", Toy.tensor 4 [1; 2; 3; 4; 5; 6; 7; 8])]
              ("data", Toy.tensor 5 [1; 2; 3; 4; 5; 6; 7; 8; 9; 10]) []).
    + vm_compute. reflexivity.
    + reflexivity.
    + repeat constructor. eexists 0, _. vm_compute.
      repeat split; reflexivity.
    + right. exists 5. split; [reflexivity | vm_compute; discriminate].
Defined.

Lemma Run_outputs_witness :
  ∃ w',
    call (Run (H := Toy.engine)
            [("data", Toy.tensor 4 [1; 2; 3; 4; 5; 6; 7; 8])] ["prob"] [])
         (Toy.world 1) = Some (OK, w')
    ∧ ∃ in0 b,
        [("data", Toy.tensor 4 [1; 2; 3; 4; 5; 6; 7; 8])] !! 0%nat = Some in0
        ∧ dim_size in0.2 0 = Some b ∧ 1 ≤ b
        ∧ length (outputs w') = 1%nat
        ∧ Forall2 (output_tensor (H := Toy.engine) (session w') b) ["prob"]
            (outputs w').
Proof.
  eexists. split; [vm_compute; reflexivity|].
  eapply (Run_outputs (H := Toy.engine)
            [("data", Toy.tensor 4 [1; 2; 3; 4; 5; 6; 7; 8])] ["prob"] []
            (Toy.world 1)).
  vm_compute. reflexivity.
Defined.




(** ** No partial success?  The input loop copies as it checks *)

Section Validation.
Context `{Engine}.

(** The input loop on a list whose first offending input is [inp]: it
    returns InvalidArgument there, with the inputs before it copied. *)
Lemma copy_inputs_rejected b pre inp post w1 :
  Forall (accepted_input (session w1) b) pre →
  rejected_input (session w1) b inp →
  match for_each (copy_input b) (pre ++ inp :: post) w1 with
  | Done _ _ => False
  | Fail st w' =>
      is_InvalidArgument st ∧ for_each (copy_input b) pre w1 = Done tt w'
  | Crash => True
  end.
Proof.
  intros Hpre Hrej. rewrite for_each_app. unfold mbind at 1, M_bind at 1.
  pose proof (copy_inputs_cases b pre w1) as Hp.
  destruct (for_each (copy_input b) pre w1) as [[] w2|st w2|]; [| |done].
  - destruct Hp as [Hq _]. simpl. unfold mbind at 1, M_bind at 1.
    pose proof (copy_input_cases b inp w2) as Hc.
    apply (rejected_input_bindings _ _ _ _ (proj1 Hq)) in Hrej.
    destruct (copy_input b inp w2) as [[] w3|st w3|].
    + destruct Hc as [_ Hacc]. by destruct (accepted_not_rejected _ _ _ Hacc).
    + by destruct Hc as (-> & Hst & _).
    + done.
  - destruct Hp as (_ & _ & Hex). apply Exists_exists in Hex as (x & Hx & Hr).
    rewrite Forall_forall in Hpre.
    destruct (accepted_not_rejected _ _ _ (Hpre x Hx) Hr).
Qed.

(** C1, as the code has it: a failure of the opening checks (target nodes
    named, wrong input count, no usable batch size) returns InvalidArgument
    with nothing touched and no engine call made; an unknown input name or
    a batch-size mismatch returns InvalidArgument before any forward pass,
    but after the capacity growth of lines 159-161 and after the inputs
    listed before the offending one have been copied into their blobs.
    When the offending input comes first and no growth is needed, the
    session is left as it was. *)
Theorem Run_validation_failure inputs names targets w :
  (malformed (session w) inputs targets →
   ∃ msg, call (Run inputs names targets) w = Some (InvalidArgument msg, w))
  ∧ (∀ b pre inp post st w',
       request_batch_size inputs targets w = Done b w →
       inputs = pre ++ inp :: post →
       Forall (accepted_input (session w) b) pre →
       rejected_input (session w) b inp →
       call (Run inputs names targets) w = Some (st, w') →
       is_InvalidArgument st
       ∧ (grow_to b ;; for_each (copy_input b) pre) w = Done tt w'
       ∧ no_forward w w'
       ∧ (pre = [] → b ≤ batch_size_ (session w) → w' = w)).
Proof.
  split; [apply malformed_rejected|].
  intros b pre inp post st w' Hreq -> Hpre Hrej Hcall.
  pose proof (request_batch_size_cases (pre ++ inp :: post) targets w) as Hr.
  rewrite Hreq in Hr.
  destruct Hr as (_ & _ & _ & _ & _ & _ & _ & _ & _ & Hb1).
  assert (∀ w1, grow_to b w = Done tt w1 →
            match for_each (copy_input b) (pre ++ inp :: post) w1 with
            | Done _ _ => False
            | Fail st w' =>
                is_InvalidArgument st
                ∧ for_each (copy_input b) pre w1 = Done tt w'
            | Crash => True
            end) as Hloop.
  { intros w1 Hg. pose proof (grow_to_cases b w Hb1) as Hgc.
    rewrite Hg in Hgc. destruct Hgc as (Hsame & _).
    apply copy_inputs_rejected.
    - eapply Forall_impl; [exact Hpre|]. intros x.
      apply (accepted_input_bindings _ _ _ _ Hsame).
    - by apply (rejected_input_bindings _ _ _ _ Hsame). }
  apply call_Some in Hcall.
  pose proof (Run_cases (pre ++ inp :: post) names targets w) as HR.
  destruct Hcall as [[-> Hrun] | Hrun]; rewrite Hrun in HR.
  { destruct HR as (b' & w1 & w2 & w3 & Hreq' & Hg & Hin & _).
    assert (b' = b) as -> by congruence.
    specialize (Hloop w1 Hg). by rewrite Hin in Hloop. }
  destruct HR as [Hfail | [(b' & w1 & Hreq' & Hg & Hin) |
                           (b' & w1 & w2 & w3 & Hreq' & Hg & Hin & _)]].
  - congruence.
  - assert (b' = b) as -> by congruence.
    specialize (Hloop w1 Hg). rewrite Hin in Hloop.
    destruct Hloop as [Hst Hdone].
    pose proof (grow_to_cases b w Hb1) as Hgc. rewrite Hg in Hgc.
    destruct Hgc as (_ & _ & _ & Hnf & Hkeep).
    pose proof (copy_inputs_cases b pre w1) as Hp. rewrite Hdone in Hp.
    destruct Hp as [Hq _].
    split; [done|]. split.
    { unfold mbind, M_bind. by rewrite Hg. }
    split.
    { eapply no_forward_trans; [exact Hnf | apply Hq]. }
    intros -> Hle. simpl in Hdone. injection Hdone as <-. by apply Hkeep.
  - assert (b' = b) as -> by congruence.
    specialize (Hloop w1 Hg). by rewrite Hin in Hloop.
Qed.

End Validation.

(** C1 as stated fails: with the binding "data" -> 0 and the inputs "data",
    "image", Run returns InvalidArgument for "image" after it has already
    overwritten blob 0 with the "data" tensor. *)
Lemma Run_unknown_input_after_copy :
  cpu_data <$> blobs (net_ (session (Toy.world 1))) = [[0; 0]; [0; 0; 0]]
  ∧ (λ r, (r.1, cpu_data <$> blobs (net_ (session r.2)), trace r.2)) <$>
      call (Run (H := Toy.engine)
              [("data", Toy.tensor 1 [7; 8]); ("image", Toy.tensor 1 [7; 8])]
              ["prob"] [])
           (Toy.world 1)
    = Some (InvalidArgument [Str "Input Tensor "; Str "image";
                             Str " does not exist in the network."],
            [[7; 8]; [0; 0; 0]], [EvCopyInput 0]).
Proof. split; vm_compute; reflexivity. Qed.

Lemma Run_validation_failure_witness :
  ∃ w',
    call (Run (H := Toy.engine)
            [("data", Toy.tensor 1 [7; 8]); ("image", Toy.tensor 1 [7; 8])]
            ["prob"] [])
         (Toy.world 1)
    = Some (InvalidArgument [Str "Input Tensor "; Str "image";
                             Str " does not exist in the network."], w')
    ∧ (grow_to (H := Toy.engine) 1 ;;
       for_each (copy_input 1) [("data", Toy.tensor 1 [7; 8])]) (Toy.world 1)
      = Done tt w'
    ∧ no_forward (Toy.world 1) w'.
Proof.
  eexists. split; [vm_compute; reflexivity|].
  pose proof (proj2 (Run_validation_failure (H := Toy.engine)
    [("data", Toy.tensor 1 [7; 8]); ("image", Toy.tensor 1 [7; 8])]
    ["prob"] [] (Toy.world 1))) as Hb.
  edestruct (Hb 1 [("data", Toy.tensor 1 [7; 8])]
               ("image", Toy.tensor 1 [7; 8]) [])
    as (_ & Hdone & Hnf & _).
  - vm_compute. reflexivity.
  - reflexivity.
  - repeat constructor. exists 0. vm_compute. reflexivity.
  - left. vm_compute. reflexivity.
  - vm_compute. reflexivity.
  - split; [exact Hdone | exact Hnf].
Defined.

(** ** Capacity over the adapter's lifetime *)

Section Capacity.
Context `{Engine}.

(** The opening checks look at the session only for the number of input
    bindings. *)
Lemma request_batch_size_session inputs targets w s :
  input_blob_map_ s = input_blob_map_ (session w) →
  request_batch_size inputs targets w =
    match request_batch_size inputs targets (mkWorld s [] []) with
    | Done b _ => Done b w
    | Fail st _ => Fail st w
    | Crash => Crash
    end.
Proof.
  intros Hmap. unfold request_batch_size. unfold_monad.
  destruct (bool_decide (0 < length targets)%nat); simpl; [done|].
  rewrite Hmap.
  destruct (bool_decide _ || bool_decide _); simpl; [done|].
  destruct (inputs !! 0%nat) as [in0|]; simpl; [|done].
  destruct (dims in0.2 <? 2); simpl; [done|].
  destruct (dim_size in0.2 0) as [d0|]; simpl; [|done].
  by destruct (to_uint32 d0 <? 1).
Qed.

Lemma determined_batch_size_request s r w :
  input_blob_map_ s = input_blob_map_ (session w) →
  match request_batch_size (req_inputs r) (req_targets r) w with
  | Done b _ => determined_batch_size s r = Some b
  | _ => determined_batch_size s r = None
  end.
Proof.
  intros Hmap. rewrite (request_batch_size_session _ _ w s Hmap).
  unfold determined_batch_size.
  pose proof (request_batch_size_cases (req_inputs r) (req_targets r)
                (mkWorld s [] [])) as Hr.
  by destruct (request_batch_size _ _ (mkWorld s [] [])).
Qed.

(** One Run call: the bindings stay, and the capacity becomes the larger of
    the old capacity and the request's batch size, if it has one. *)
Lemma run_capacity r w st w' s :
  input_blob_map_ s = input_blob_map_ (session w) →
  call (run r) w = Some (st, w') →
  same_bindings (session w) (session w')
  ∧ batch_size_ (session w') =
      match determined_batch_size s r with
      | Some b => Z.max (batch_size_ (session w)) b
      | None => batch_size_ (session w)
      end.
Proof.
  intros Hmap Hcall. unfold run in Hcall.
  destruct (Run_capacity _ _ _ _ _ _ Hcall) as [Hsame Hcap].
  split; [done|]. rewrite Hcap.
  pose proof (determined_batch_size_request s r w Hmap) as Hd.
  destruct (request_batch_size _ _ w); by rewrite Hd.
Qed.

Lemma CopyTrainedLayers_cases trained_filename w :
  match CopyTrainedLayersFromBinaryProto trained_filename w with
  | Done _ w' =>
      same_bindings (session w) (session w')
      ∧ batch_size_ (session w') = batch_size_ (session w)
  | Fail st w' => w' = w ∧ is_InvalidArgument st
  | Crash => True
  end.
Proof.
  unfold CopyTrainedLayersFromBinaryProto.
  destruct (ReadProtoFromBinaryFile trained_filename) as [param|]; [|done].
  unfold_monad. simpl.
  by destruct (Net_CopyTrainedLayersFrom (net_ (session w)) param).
Qed.

Lemma BatchSizeOf_ge_1 net e : BatchSizeOf net = Some e → 1 ≤ e.
Proof.
  unfold BatchSizeOf.
  assert (∀ idxs acc,
            (∀ x, acc = Some x → 1 ≤ x) →
            foldl (λ acc idx,
                     x ← acc;
                     blob ← blobs net !! index idx;
                     let shape := shape blob in
                     if bool_decide (1 < length shape)%nat && (0 <? hd 0 shape)
                     then Some (Z.max x (to_uint32 (hd 0 shape)))
                     else Some x) acc idxs = Some e → 1 ≤ e) as Hgen.
  { induction idxs as [|idx idxs IH]; intros acc Hacc; simpl.
    - apply Hacc.
    - apply IH. intros x. destruct acc as [x0|]; simpl; [|done].
      specialize (Hacc x0 eq_refl).
      destruct (blobs net !! index idx) as [blob|]; simpl; [|done].
      destruct (bool_decide _ && _); intros [= <-]; lia. }
  apply Hgen. intros x [= <-]. lia.
Qed.

Lemma new_session_capacity graph s :
  new_session graph = Some s →
  BatchSizeOf (net_ s) = Some (batch_size_ s) ∧ 1 ≤ batch_size_ s.
Proof.
  unfold new_session. intros Hnew.
  destruct (Net_new graph) as [net|]; simpl in Hnew; [|done].
  destruct (bind_names _ (input_blob_indices net)); simpl in Hnew; [|done].
  destruct (bind_names _ (output_blob_indices net)); simpl in Hnew; [|done].
  destruct (BatchSizeOf net) as [e|] eqn:He; simpl in Hnew; [|done].
  injection Hnew as <-. simpl. split; [done|]. by eapply BatchSizeOf_ge_1.
Qed.

Lemma perform_capacity op w st w' :
  call (perform op) w = Some (st, w') →
  1 ≤ batch_size_ (session w) → 1 ≤ batch_size_ (session w').
Proof.
  intros Hcall Hcap. destruct op as [r|b|f]; simpl in Hcall.
  - destruct (run_capacity r w st w' (session w) eq_refl Hcall) as [_ ->].
    destruct (determined_batch_size _ _); lia.
  - apply call_Some in Hcall. pose proof (Reshape_cases b w) as HR.
    destruct Hcall as [[_ Hrun] | Hrun]; rewrite Hrun in HR.
    + destruct HR as (? & _ & -> & _). lia.
    + by destruct HR as (-> & _).
  - apply call_Some in Hcall.
    pose proof (CopyTrainedLayers_cases f w) as HC.
    destruct Hcall as [[_ Hrun] | Hrun]; rewrite Hrun in HC.
    + destruct HC as (_ & ->). lia.
    + by destruct HC as (-> & _).
Qed.

Lemma perform_all_capacity ops w w' :
  perform_all ops w = Some w' →
  1 ≤ batch_size_ (session w) → 1 ≤ batch_size_ (session w').
Proof.
  revert w. induction ops as [|op ops IH]; intros w; simpl.
  - by intros [= <-].
  - destruct (call (perform op) w) as [[st w1]|] eqn:Hcall; [|done].
    intros Hrest Hcap. apply (IH w1 Hrest). by eapply perform_capacity.
Qed.

(** A sequence of Run calls only: the capacity ends at or above where it
    began and at or above every batch size that got past the checks. *)
Lemma runs_capacity reqs w w' :
  perform_all (DoRun <$> reqs) w = Some w' →
  same_bindings (session w) (session w')
  ∧ batch_size_ (session w) ≤ batch_size_ (session w')
  ∧ ∀ r b, r ∈ reqs → determined_batch_size (session w) r = Some b →
           b ≤ batch_size_ (session w').
Proof.
  revert w. induction reqs as [|r reqs IH]; intros w; simpl.
  - intros [= <-]. split; [done|]. split; [lia|].
    intros r b Hr. by apply elem_of_nil in Hr.
  - destruct (call (run r) w) as [[st w1]|] eqn:Hcall; [|done].
    intros Hrest. destruct (IH w1 Hrest) as ([Hi Ho] & Hle & Hall).
    destruct (run_capacity r w st w1 (session w) eq_refl Hcall)
      as [[Hi1 Ho1] Hcap].
    split; [split; congruence|].
    assert (batch_size_ (session w) ≤ batch_size_ (session w1)) as Hle1.
    { rewrite Hcap. destruct (determined_batch_size _ _); lia. }
    split; [lia|].
    intros r' b Hin Hdet. apply elem_of_cons in Hin as [-> | Hin].
    + rewrite Hdet in Hcap. lia.
    + apply (Hall r' b Hin). rewrite <- Hdet.
      unfold determined_batch_size.
      pose proof (request_batch_size_session (req_inputs r') (req_targets r')
                    (mkWorld (session w1) [] []) (session w)) as Heq.
      simpl in Heq. rewrite Heq by done.
      by destruct (request_batch_size _ _ (mkWorld (session w) [] [])).
Qed.

(** C4: on an adapter fresh from the constructor, after any sequence of
    Run calls that all returned, the capacity is at least the initial
    estimate (BatchSizeOf of the loaded net) and at least the batch size of
    every request of the sequence that passed the opening checks. *)
Theorem capacity_covers_batches graph s0 outs0 reqs w' :
  new_session graph = Some s0 →
  perform_all (DoRun <$> reqs) (mkWorld s0 outs0 []) = Some w' →
  BatchSizeOf (net_ s0) = Some (batch_size_ s0)
  ∧ batch_size_ s0 ≤ batch_size_ (session w')
  ∧ ∀ r b, r ∈ reqs → determined_batch_size s0 r = Some b →
           b ≤ batch_size_ (session w').
Proof.
  intros Hnew Hruns.
  destruct (new_session_capacity _ _ Hnew) as [Hest _].
  destruct (runs_capacity _ _ _ Hruns) as (_ & Hle & Hall).
  split; [done|]. split; [done|]. exact Hall.
Qed.

(** C2, as the code has it: from the constructor on, through any sequence
    of Run, Reshape and weight-loading calls, the capacity is at least 1;
    a Run call never lowers it; but Reshape(b) with b >= 1 sets it to b
    exactly, which may be below the capacity before. *)
Theorem capacity_lifetime graph s0 outs0 ops w :
  new_session graph = Some s0 →
  perform_all ops (mkWorld s0 outs0 []) = Some w →
  1 ≤ batch_size_ (session w)
  ∧ (∀ r st w', call (run r) w = Some (st, w') →
                batch_size_ (session w) ≤ batch_size_ (session w'))
  ∧ (∀ b st w', 1 ≤ b → call (Reshape b) w = Some (st, w') →
                st = OK ∧ batch_size_ (session w') = b).
Proof.
  intros Hnew Hops.
  destruct (new_session_capacity _ _ Hnew) as [_ Hcap0].
  split; [by apply (perform_all_capacity _ _ _ Hops)|]. split.
  - intros r st w' Hcall.
    destruct (run_capacity r w st w' (session w) eq_refl Hcall) as [_ ->].
    destruct (determined_batch_size _ _); lia.
  - intros b st w' Hb Hcall. apply call_Some in Hcall.
    pose proof (Reshape_cases b w) as HR.
    destruct Hcall as [[-> Hrun] | Hrun]; rewrite Hrun in HR.
    + by destruct HR as (_ & _ & -> & _).
    + destruct HR as (_ & ? & _). lia.
Qed.

End Capacity.

Lemma capacity_covers_batches_witness :
  ∃ w',
    perform_all (H := Toy.engine)
      (DoRun <$>
         [mkRequest [("data", Toy.tensor 4 [1; 2; 3; 4; 5; 6; 7; 8])]
                    ["prob"] [];
          mkRequest [("data", Toy.tensor 2 [1; 2; 3; 4])] ["prob"] []])
      (mkWorld (Toy.session 1) [] []) = Some w'
    ∧ batch_size_ (session w') = 4
    ∧ BatchSizeOf (net_ (Toy.session 1)) = Some (batch_size_ (Toy.session 1))
    ∧ batch_size_ (Toy.session 1) ≤ batch_size_ (session w')
    ∧ ∀ r b,
        r ∈ [mkRequest [("data", Toy.tensor 4 [1; 2; 3; 4; 5; 6; 7; 8])]
                       ["prob"] [];
             mkRequest [("data", Toy.tensor 2 [1; 2; 3; 4])] ["prob"] []] →
        determined_batch_size (Toy.session 1) r = Some b →
        b ≤ batch_size_ (session w').
Proof.
  eexists. split; [vm_compute; reflexivity|]. split; [reflexivity|].
  apply (capacity_covers_batches (H := Toy.engine) (Toy.graph 1)
           (Toy.session 1) []).
  - vm_compute. reflexivity.
  - vm_compute. reflexivity.
Defined.

(** C2 as stated fails: the session built from a net whose input has
    leading dimension 4 starts at capacity 4, and Reshape(1) returns OK and
    leaves it at capacity 1. *)
Lemma Reshape_lowers_capacity :
  new_session (H := Toy.engine) (Toy.graph 4) = Some (Toy.session 4)
  ∧ batch_size_ (Toy.session 4) = 4
  ∧ (λ r, (r.1, batch_size_ (session r.2))) <$>
      call (Reshape (H := Toy.engine) 1) (Toy.world 4)
    = Some (OK, 1).
Proof. repeat split; vm_compute; reflexivity. Qed.

Lemma capacity_lifetime_witness :
  ∃ w,
    perform_all (H := Toy.engine)
      [DoReshape 4;
       DoRun (mkRequest [("data", Toy.tensor 2 [1; 2; 3; 4])] ["prob"] []);
       DoCopyTrainedLayers "lenet.caffemodel";
       DoReshape 2]
      (mkWorld (Toy.session 1) [] []) = Some w
    ∧ batch_size_ (session w) = 2
    ∧ 1 ≤ batch_size_ (session w)
    ∧ (∀ r st w', call (run (H := Toy.engine) r) w = Some (st, w') →
                  batch_size_ (session w) ≤ batch_size_ (session w'))
    ∧ (∀ b st w', 1 ≤ b → call (Reshape (H := Toy.engine) b) w = Some (st, w') →
                  st = OK ∧ batch_size_ (session w') = b).
Proof.
  eexists. split; [vm_compute; reflexivity|]. split; [reflexivity|].
  apply (capacity_lifetime (H := Toy.engine) (Toy.graph 1) (Toy.session 1) []
           [DoReshape 4;
            DoRun (mkRequest [("data", Toy.tensor 2 [1; 2; 3; 4])] ["prob"] []);
            DoCopyTrainedLayers "lenet.caffemodel";
            DoReshape 2]).
  - vm_compute. reflexivity.
  - vm_compute. reflexivity.
Defined.

(** ** The initial estimate *)

Lemma foldr_max_shift x a l :
  foldr Z.max (Z.max x a) l = Z.max a (foldr Z.max x l).
Proof. induction l as [|y l IH]; simpl; lia. Qed.

Lemma foldl_max_foldr x l : foldl Z.max x l = foldr Z.max x l.
Proof.
  revert x. induction l as [|a l IH]; intros x; simpl; [done|].
  by rewrite IH, foldr_max_shift.
Qed.

(** [foldr Z.max c cs] is the maximum of [c :: cs]. *)
Lemma foldr_max_is_max c cs :
  foldr Z.max c cs ∈ c :: cs ∧ ∀ y, y ∈ c :: cs → y ≤ foldr Z.max c cs.
Proof.
  induction cs as [|a cs [Hin Hle]]; simpl.
  - split; [left|]. intros y Hy. apply list_elem_of_singleton in Hy. lia.
  - split.
    + destruct (Z.max_spec a (foldr Z.max c cs)) as [[_ ->] | [_ ->]].
      * apply elem_of_cons in Hin as [-> | Hin]; [left|].
        right. by right.
      * right. left.
    + intros y Hy. apply elem_of_cons in Hy as [-> | Hy].
      * specialize (Hle c (list_elem_of_here _ _)). lia.
      * apply elem_of_cons in Hy as [-> | Hy]; [lia|].
        specialize (Hle y (list_elem_of_further _ _ _ Hy)). lia.
Qed.

Lemma to_uint32_small d : 0 ≤ d ≤ INT_MAX → to_uint32 d = d.
Proof. unfold to_uint32, INT_MAX. intros Hd. apply Z.mod_small. lia. Qed.

Section Estimate.
Context `{Engine}.

(** The candidates are exactly the leading dimensions of the declared
    input blobs that have more than one dimension and a positive leading
    dimension. *)
Lemma batch_candidates_spec net c :
  c ∈ batch_candidates net ↔
  ∃ idx blob, idx ∈ input_blob_indices net
              ∧ blobs net !! index idx = Some blob
              ∧ resizable blob ∧ c = hd 0 (shape blob).
Proof.
  unfold batch_candidates, resizable. rewrite list_elem_of_omap. split.
  - intros (idx & Hidx & Hc). exists idx.
    destruct (blobs net !! index idx) as [blob|]; simpl in Hc; [|done].
    exists blob. destruct (shape blob) as [|d0 [|d1 rest]]; try done.
    destruct (0 <? d0) eqn:Hd; [|done]. apply Z.ltb_lt in Hd.
    injection Hc as ->. simpl. repeat split; try done. lia.
  - intros (idx & blob & Hidx & Hb & [Hlen Hpos] & ->). exists idx.
    split; [done|]. rewrite Hb. simpl.
    destruct (shape blob) as [|d0 [|d1 rest]]; simpl in *; try lia.
    apply Z.ltb_lt in Hpos. by rewrite Hpos.
Qed.

Lemma BatchSizeOf_fold net idxs x :
  int_shapes net →
  (∀ idx, idx ∈ idxs → is_Some (blobs net !! index idx)) →
  foldl (λ acc idx,
           x ← acc;
           blob ← blobs net !! index idx;
           let shape := shape blob in
           if bool_decide (1 < length shape)%nat && (0 <? hd 0 shape)
           then Some (Z.max x (to_uint32 (hd 0 shape)))
           else Some x)
        (Some x) idxs
  = Some (foldl Z.max x
            (omap (λ idx,
                     blob ← blobs net !! index idx;
                     match shape blob with
                     | d0 :: _ :: _ => if 0 <? d0 then Some d0 else None
                     | _ => None
                     end) idxs)).
Proof.
  intros Hint. revert x. induction idxs as [|idx idxs IH]; intros x Hrange.
  { done. }
  destruct (Hrange idx (list_elem_of_here _ _)) as [blob Hb].
  assert (∀ i, i ∈ idxs → is_Some (blobs net !! index i)) as Hrange'.
  { intros i Hi. apply Hrange. by right. }
  cbn [foldl omap list_omap]. simpl. rewrite Hb. simpl.
  pose proof (Hint blob (list_elem_of_lookup_2 _ _ _ Hb)) as Hdims.
  destruct (shape blob) as [|d0 [|d1 rest]] eqn:Hs; simpl.
  - by apply IH.
  - by apply IH.
  - destruct (0 <? d0) eqn:Hd.
    + apply Z.ltb_lt in Hd. apply Forall_cons in Hdims as [Hd0 _].
      rewrite to_uint32_small by lia. by apply IH.
    + by apply IH.
Qed.

(** C8: the capacity the constructor starts from is the maximum of the
    leading dimensions of the declared input blobs that have more than one
    dimension and a positive leading dimension, and 1 when there is no such
    blob. *)
Theorem initial_capacity_estimate graph net :
  Net_new graph = Some net → int_shapes net → inputs_in_range net →
  BatchSizeOf net = Some (capacity_estimate net)
  ∧ (∀ s, new_session graph = Some s → batch_size_ s = capacity_estimate net)
  ∧ (batch_candidates net = [] → capacity_estimate net = 1)
  ∧ (batch_candidates net ≠ [] →
     capacity_estimate net ∈ batch_candidates net
     ∧ ∀ c, c ∈ batch_candidates net → c ≤ capacity_estimate net).
Proof.
  intros Hnew Hint Hrange.
  assert (BatchSizeOf net = Some (capacity_estimate net)) as Hest.
  { transitivity (Some (foldl Z.max 1 (batch_candidates net)));
      [exact (BatchSizeOf_fold net _ 1 Hint Hrange)|].
    f_equal. unfold capacity_estimate.
    destruct (batch_candidates net) as [|c cs] eqn:Hc; [done|].
    assert (0 < c) as Hpos.
    { assert (c ∈ batch_candidates net) as Hin by (rewrite Hc; left).
      apply batch_candidates_spec in Hin
        as (idx & blob & _ & _ & [_ Hpos] & ->). done. }
    simpl. rewrite foldl_max_foldr. f_equal. lia. }
  split; [done|]. split.
  { intros s Hs. unfold new_session in Hs. rewrite Hnew in Hs. simpl in Hs.
    destruct (bind_names _ (input_blob_indices net)); simpl in Hs; [|done].
    destruct (bind_names _ (output_blob_indices net)); simpl in Hs; [|done].
    rewrite Hest in Hs. simpl in Hs. by injection Hs as <-. }
  unfold capacity_estimate.
  destruct (batch_candidates net) as [|c cs]; [done|].
  split; [done|]. intros _. apply foldr_max_is_max.
Qed.

End Estimate.

Lemma initial_capacity_estimate_witness :
  BatchSizeOf (Toy.graph 4) = Some 4
  ∧ capacity_estimate (Toy.graph 4) = 4
  ∧ BatchSizeOf (Toy.graph 4) = Some (capacity_estimate (Toy.graph 4)).
Proof.
  split; [reflexivity|]. split; [reflexivity|].
  apply (initial_capacity_estimate (H := Toy.engine) (Toy.graph 4)
           (Toy.graph 4)).
  - reflexivity.
  - intros blob Hblob. unfold INT_MAX.
    apply elem_of_cons in Hblob as [-> | Hblob];
      [simpl; repeat constructor; lia|].
    apply list_elem_of_singleton in Hblob as ->.
    simpl; repeat constructor; lia.
  - intros idx Hidx. apply list_elem_of_singleton in Hidx as ->.
    eexists. reflexivity.
Defined.

(** ** Reshape *)

Lemma to_int32_nonneg b : 1 ≤ b < 2 ^ 32 → 0 ≤ to_int32 b → to_int32 b = b.
Proof.
  unfold to_int32. intros Hb Hnn.
  destruct (Z_lt_le_dec b (2 ^ 31)) as [Hlt | Hge].
  - rewrite Z.mod_small; lia.
  - assert ((b + 2 ^ 31) mod 2 ^ 32 = b - 2 ^ 31) as Hm.
    { replace (b + 2 ^ 31) with (b - 2 ^ 31 + 1 * 2 ^ 32) by lia.
      rewrite Z.mod_add by lia. apply Z.mod_small. lia. }
    lia.
Qed.

Lemma resizable_test blob :
  bool_decide (1 < length (shape blob))%nat && (0 <? hd 0 (shape blob)) = true
  ↔ resizable blob.
Proof.
  unfold resizable.
  rewrite andb_true_iff, bool_decide_eq_true, Z.ltb_lt. done.
Qed.

Section ReshapeSpec.
Context `{Engine}.
Hypothesis Hengine : Blob_Reshape_ok.

Lemma inputs_resized_nil b net : inputs_resized b [] net net.
Proof.
  repeat split. intros i blob Hi. exists blob. split; [done|].
  split; [|done]. intros Hin. by apply elem_of_nil in Hin.
Qed.

(** One iteration of the loop extends the set of resized inputs by one
    index. *)
Lemma reshape_input_resized b net0 done idx w w' :
  1 ≤ b < 2 ^ 32 →
  inputs_resized b done net0 (net_ (session w)) →
  reshape_input b idx w = Done tt w' →
  inputs_resized b (done ++ [idx]) net0 (net_ (session w'))
  ∧ ∃ evs, trace w' = trace w ++ evs ∧ Forall is_blob_reshape evs.
Proof.
  intros Hb (Hn & Hi & Ho & Hp & Hlen & Hblobs). unfold reshape_input.
  unfold_monad. simpl.
  destruct (blobs (net_ (session w)) !! index idx) as [blob|] eqn:Hcur;
    simpl; [|done].
  assert (∀ i, i ∈ index <$> (done ++ [idx]) ↔
               i ∈ index <$> done ∨ i = index idx) as Hmem.
  { intros i. rewrite fmap_app, elem_of_app. simpl.
    by rewrite list_elem_of_singleton. }
  destruct (bool_decide _ && _) eqn:Htest; simpl.
  - apply resizable_test in Htest as Hres.
    destruct (Blob_Reshape blob _) as [blob'|] eqn:HR; simpl; [|done].
    intros [= <-]. simpl.
    destruct (Hengine _ _ _ HR) as [Hshape Hnn].
    assert (to_int32 b = b) as Hconv.
    { apply to_int32_nonneg; [done|]. destruct Hres as [Hl _].
      destruct (shape blob) as [|d0 rest]; simpl in *; [lia|].
      by apply Forall_cons in Hnn as [? _]. }
    rewrite Hconv in Hshape.
    split.
    + repeat split; simpl; try done.
      { by rewrite length_insert. }
      intros i blob0 Hi0. destruct (Hblobs i blob0 Hi0) as (cur & Hc & Hyes & Hno).
      destruct (decide (i = index idx)) as [-> | Hne].
      * assert (cur = blob) as -> by congruence.
        exists blob'. split.
        { apply list_lookup_insert_eq. by eapply lookup_lt_Some. }
        split.
        -- intros _ Hres0. rewrite Hshape.
           destruct (decide (index idx ∈ index <$> done)) as [Hin | Hnin].
           ++ rewrite (Hyes Hin Hres0). by rewrite list_insert_insert_eq.
           ++ by rewrite (Hno (λ Hc', Hnin (proj1 Hc'))).
        -- intros Hnot. exfalso.
           assert (¬ resizable blob0) as Hnres.
           { intros Hr. apply Hnot. split; [|done]. apply Hmem. by right. }
           rewrite (Hno (λ Hc', Hnres (proj2 Hc'))) in Hres. done.
      * exists cur. split; [by rewrite list_lookup_insert_ne|]. split.
        -- intros Hin. apply Hyes. apply Hmem in Hin as [?|?]; done.
        -- intros Hnot. apply Hno. intros [Hin Hr]. apply Hnot.
           split; [|done]. apply Hmem. by left.
    + eexists. split; [done|]. by repeat constructor.
  - assert (¬ resizable blob) as Hnres.
    { intros Hr. apply resizable_test in Hr. congruence. }
    intros [= <-]. split.
    + repeat split; try done.
      intros i blob0 Hi0. destruct (Hblobs i blob0 Hi0) as (cur & Hc & Hyes & Hno).
      exists cur. split; [done|]. split.
      * intros Hin Hres0. apply Hmem in Hin as [Hin | ->]; [by apply Hyes|].
        assert (cur = blob) as -> by congruence.
        destruct (decide (index idx ∈ index <$> done)) as [Hin | Hnin];
          [by apply Hyes|].
        rewrite (Hno (λ Hc', Hnin (proj1 Hc'))) in Hnres. done.
      * intros Hnot. apply Hno. intros [Hin Hr]. apply Hnot.
        split; [|done]. apply Hmem. by left.
    + exists []. by rewrite app_nil_r.
Qed.

Lemma reshape_loop_resized b net0 idxs done w w' :
  1 ≤ b < 2 ^ 32 →
  inputs_resized b done net0 (net_ (session w)) →
  for_each (reshape_input b) idxs w = Done tt w' →
  inputs_resized b (done ++ idxs) net0 (net_ (session w'))
  ∧ ∃ evs, trace w' = trace w ++ evs ∧ Forall is_blob_reshape evs.
Proof.
  intros Hb. revert done w. induction idxs as [|idx idxs IH];
    intros done w Hinv; simpl.
  - intros [= <-]. rewrite app_nil_r. split; [done|].
    exists []. by rewrite app_nil_r.
  - unfold mbind at 1, M_bind at 1.
    destruct (reshape_input b idx w) as [[] w1|st w1|] eqn:Hstep; [|done..].
    intros Hrest.
    destruct (reshape_input_resized b net0 done idx w w1 Hb Hinv Hstep)
      as (Hinv1 & e1 & He1 & Hf1).
    destruct (IH (done ++ [idx]) w1 Hinv1 Hrest) as (Hinv2 & e2 & He2 & Hf2).
    rewrite <- app_assoc in Hinv2. split; [done|].
    exists (e1 ++ e2). rewrite He2, He1, app_assoc. split; [done|].
    by apply Forall_app.
Qed.

(** C5: Reshape(b), for b >= 1 (an unsigned int) other than the current
    capacity, when it returns, returns OK, having set the leading dimension
    of exactly the resizable input blobs (more than one dimension, positive
    leading dimension) to b and left every other blob alone, then run the
    net's own shape propagation on the result, then recorded b as the
    capacity.  Reshape(b) with b < 1 returns InvalidArgument and changes
    nothing. *)
Theorem Reshape_resizes_inputs b w :
  (1 ≤ b < 2 ^ 32 → b ≠ batch_size_ (session w) →
   ∀ st w', call (Reshape b) w = Some (st, w') →
     st = OK
     ∧ ∃ net evs,
         inputs_resized b (input_blob_indices (net_ (session w)))
           (net_ (session w)) net
         ∧ Net_Reshape net = Some (net_ (session w'))
         ∧ batch_size_ (session w') = b
         ∧ same_bindings (session w) (session w')
         ∧ outputs w' = outputs w
         ∧ trace w' = trace w ++ evs ++ [EvNetReshape]
         ∧ Forall is_blob_reshape evs)
  ∧ (b < 1 → ∃ msg, call (Reshape b) w = Some (InvalidArgument msg, w)).
Proof.
  split.
  - intros Hb Hne st w' Hcall. unfold call, Reshape in Hcall.
    unfold mbind at 1, M_bind at 1, return_if in Hcall.
    destruct (b <=? 0) eqn:Hle; [apply Z.leb_le in Hle; lia|].
    simpl in Hcall. unfold mbind at 1, M_bind at 1, get at 1 in Hcall.
    destruct (batch_size_ (session w) =? b) eqn:Heq;
      [apply Z.eqb_eq in Heq; congruence|].
    unfold mbind at 1, M_bind at 1 in Hcall.
    pose proof (reshape_loop_quiet b (input_blob_indices (net_ (session w))) w)
      as Hq. unfold post in Hq.
    destruct (for_each _ _ w) as [[] w1|st1 w1|] eqn:Hloop; [|done..].
    destruct Hq as (Hsame & Hcap & Hout & _).
    destruct (reshape_loop_resized b (net_ (session w)) _ [] w w1 Hb
                (inputs_resized_nil _ _) Hloop) as (Hres & evs & Hev & Hall).
    unfold_monad. simpl in Hcall.
    destruct (Net_Reshape (net_ (session w1))) as [net2|] eqn:HNR;
      simpl in Hcall; [|done].
    injection Hcall as <- <-. split; [done|].
    exists (net_ (session w1)), evs. simpl.
    split; [exact Hres|]. split; [done|]. split; [done|].
    split; [exact Hsame|]. split; [done|]. split; [|done].
    by rewrite Hev, app_assoc.
  - intros Hb. unfold call, Reshape. unfold_monad.
    destruct (b <=? 0) eqn:Hle; [|apply Z.leb_gt in Hle; lia].
    simpl. eauto.
Qed.

End ReshapeSpec.

Lemma Toy_Blob_Reshape_ok : Blob_Reshape_ok (H := Toy.engine).
Proof.
  intros blob new_shape blob'. simpl. unfold Toy.Reshape_blob.
  destruct (forallb _ new_shape) eqn:Hall; [|done].
  intros [= <-]. split; [done|].
  apply Forall_forall. intros d Hd.
  apply list_elem_of_In in Hd.
  rewrite forallb_forall in Hall. by apply Z.leb_le, Hall.
Qed.

Lemma Reshape_resizes_inputs_witness :
  ∃ w',
    call (Reshape (H := Toy.engine) 4) (Toy.world 1) = Some (OK, w')
    ∧ ∃ net evs,
        inputs_resized 4 [0] (Toy.graph 1) net
        ∧ Net_Reshape (Engine := Toy.engine) net = Some (net_ (session w'))
        ∧ batch_size_ (session w') = 4
        ∧ same_bindings (Toy.session 1) (session w')
        ∧ outputs w' = []
        ∧ trace w' = [] ++ evs ++ [EvNetReshape]
        ∧ Forall is_blob_reshape evs.
Proof.
  eexists. split; [vm_compute; reflexivity|].
  destruct (Reshape_resizes_inputs (H := Toy.engine) Toy_Blob_Reshape_ok 4
              (Toy.world 1)) as [Hyes _].
  refine (proj2 (Hyes _ _ OK _ _)).
  - vm_compute. split; [discriminate | reflexivity].
  - vm_compute. discriminate.
  - vm_compute. reflexivity.
Defined.

(** ** The binding tables the constructor builds *)

Section Bindings.
Context `{Engine}.

Lemma bind_step_None (names : list string) (idxs : list Z) :
  foldl (λ acc idx,
           m ← acc;
           name ← names !! index idx;
           Some (emplace name idx m)) None idxs = None.
Proof. induction idxs as [|idx idxs IH]; simpl; done. Qed.

(** The table after the loop: what was bound stays bound; any other name
    goes to the first index that carries it; every index is in range. *)
Lemma bind_names_from (names : list string) (idxs : list Z) m0 m :
  foldl (λ acc idx,
           m ← acc;
           name ← names !! index idx;
           Some (emplace name idx m)) (Some m0) idxs = Some m →
  (∀ idx, idx ∈ idxs → is_Some (names !! index idx))
  ∧ (∀ name, m !! name =
             match m0 !! name with
             | Some v => Some v
             | None => first_named names idxs name
             end)
  ∧ (size m ≤ size m0 + length idxs)%nat
  ∧ (NoDup ((λ idx, names !! index idx) <$> idxs) →
     (∀ idx name, idx ∈ idxs → names !! index idx = Some name →
                  m0 !! name = None) →
     size m = (size m0 + length idxs)%nat).
Proof.
  revert m0. induction idxs as [|idx idxs IH]; intros m0; simpl.
  { intros [= <-]. split; [intros idx Hi; by apply elem_of_nil in Hi|].
    split; [intros name; by destruct (m0 !! name)|]. split; lia. }
  destruct (names !! index idx) as [name0|] eqn:Hn; simpl.
  2:{ by rewrite bind_step_None. }
  intros Hfold. destruct (IH _ Hfold) as (Hrange & Hlook & Hsize & Hexact).
  assert (size (emplace name0 idx m0) ≤ S (size m0))%nat as Hs1.
  { unfold emplace. destruct (m0 !! name0) eqn:H0; [lia|].
    by rewrite map_size_insert_None. }
  split; [|split; [|split]].
  - intros i Hi. apply elem_of_cons in Hi as [-> | Hi]; [by rewrite Hn|].
    by apply Hrange.
  - intros name. rewrite Hlook. unfold emplace.
    destruct (decide (Some name0 = Some name)) as [Heq | Hne].
    + injection Heq as ->.
      destruct (m0 !! name) eqn:H0; [by rewrite H0|].
      by rewrite lookup_insert_eq.
    + assert (name0 ≠ name) as Hne' by congruence.
      destruct (m0 !! name0) eqn:H0; [done|].
      by rewrite lookup_insert_ne.
  - lia.
  - intros Hnd Hfresh. apply NoDup_cons in Hnd as [Hnotin Hnd].
    assert (m0 !! name0 = None) as H0.
    { apply (Hfresh idx); [left | done]. }
    rewrite Hexact.
    + unfold emplace. rewrite H0. rewrite map_size_insert_None by done. lia.
    + done.
    + intros i name Hi Hname. unfold emplace. rewrite H0.
      destruct (decide (name0 = name)) as [-> | Hne].
      * exfalso. apply Hnotin. rewrite <- Hname.
        apply (list_elem_of_fmap_2 (λ idx, names !! index idx)). done.
      * rewrite lookup_insert_ne by done. apply (Hfresh i); [by right | done].
Qed.

Lemma first_named_Some (names : list string) idxs name idx :
  first_named names idxs name = Some idx ↔
  ∃ pre post, idxs = pre ++ idx :: post
              ∧ names !! index idx = Some name
              ∧ ∀ j, j ∈ pre → names !! index j ≠ Some name.
Proof.
  induction idxs as [|i idxs IH]; simpl.
  { split; [done|]. intros (pre & post & Heq & _). by destruct pre. }
  destruct (decide (names !! index i = Some name)) as [Hi | Hi]; split.
  - intros [= ->]. exists [], idxs. split; [done|]. split; [done|].
    intros j Hj. by apply elem_of_nil in Hj.
  - intros (pre & post & Heq & Hname & Hpre). destruct pre as [|p pre].
    + simpl in Heq. by injection Heq as ->.
    + simpl in Heq. injection Heq as -> _.
      destruct (Hpre p (list_elem_of_here _ _) Hi).
  - intros Hf. apply IH in Hf as (pre & post & -> & Hname & Hpre).
    exists (i :: pre), post. split; [done|]. split; [done|].
    intros j Hj. apply elem_of_cons in Hj as [-> | Hj]; [done | by apply Hpre].
  - intros (pre & post & Heq & Hname & Hpre). destruct pre as [|p pre].
    + simpl in Heq. injection Heq as -> _. done.
    + simpl in Heq. injection Heq as -> ->. apply IH.
      exists pre, post. split; [done|]. split; [done|].
      intros j Hj. apply Hpre. by right.
Qed.

Lemma bind_names_lookup (names : list string) idxs m name idx :
  bind_names names idxs = Some m →
  m !! name = Some idx ↔
  ∃ pre post, idxs = pre ++ idx :: post
              ∧ names !! index idx = Some name
              ∧ ∀ j, j ∈ pre → names !! index j ≠ Some name.
Proof.
  intros Hb. destruct (bind_names_from _ _ _ _ Hb) as (_ & Hlook & _).
  rewrite Hlook, lookup_empty. apply first_named_Some.
Qed.

Lemma new_session_parts graph s :
  new_session graph = Some s →
  Net_new graph = Some (net_ s)
  ∧ bind_names (blob_names (net_ s)) (input_blob_indices (net_ s))
    = Some (input_blob_map_ s)
  ∧ bind_names (blob_names (net_ s)) (output_blob_indices (net_ s))
    = Some (output_blob_map_ s)
  ∧ BatchSizeOf (net_ s) = Some (batch_size_ s).
Proof.
  unfold new_session. intros Hnew.
  destruct (Net_new graph) as [net|]; simpl in Hnew; [|done].
  destruct (bind_names _ (input_blob_indices net)) as [mi|] eqn:Hi;
    simpl in Hnew; [|done].
  destruct (bind_names _ (output_blob_indices net)) as [mo|] eqn:Ho;
    simpl in Hnew; [|done].
  destruct (BatchSizeOf net) as [e|] eqn:He; simpl in Hnew; [|done].
  by injection Hnew as <-.
Qed.

Lemma bind_names_round_trip (names : list string) idxs m :
  bind_names names idxs = Some m →
  (∀ name idx, m !! name = Some idx →
               idx ∈ idxs ∧ names !! index idx = Some name)
  ∧ (∀ idx, idx ∈ idxs →
            ∃ name, names !! index idx = Some name ∧ is_Some (m !! name)).
Proof.
  intros Hb. split.
  - intros name idx Hl.
    apply (bind_names_lookup _ _ _ _ _ Hb) in Hl
      as (pre & post & -> & Hname & _).
    split; [|done]. apply elem_of_app. right. left.
  - intros idx Hidx.
    destruct (bind_names_from _ _ _ _ Hb) as (Hrange & Hlook & _).
    destruct (Hrange idx Hidx) as [name Hname]. exists name. split; [done|].
    rewrite Hlook, lookup_empty.
    assert (∀ l, idx ∈ l → is_Some (first_named names l name)) as Hfirst.
    { induction l as [|i l IH]; intros Hin; [by apply elem_of_nil in Hin|].
      simpl. destruct (decide (names !! index i = Some name)); [eauto|].
      apply IH. apply elem_of_cons in Hin as [-> | ?]; [congruence | done]. }
    by apply Hfirst.
Qed.

(** X1: in a session fresh from the constructor, every bound input name
    leads to a declared input index whose blob carries that very name, and
    every declared input blob's name is bound; the same for outputs. *)
Theorem bindings_round_trip graph s :
  new_session graph = Some s →
  (∀ name idx, input_blob_map_ s !! name = Some idx →
     idx ∈ input_blob_indices (net_ s)
     ∧ blob_names (net_ s) !! index idx = Some name)
  ∧ (∀ idx, idx ∈ input_blob_indices (net_ s) →
       ∃ name, blob_names (net_ s) !! index idx = Some name
               ∧ is_Some (input_blob_map_ s !! name))
  ∧ (∀ name idx, output_blob_map_ s !! name = Some idx →
       idx ∈ output_blob_indices (net_ s)
       ∧ blob_names (net_ s) !! index idx = Some name)
  ∧ (∀ idx, idx ∈ output_blob_indices (net_ s) →
       ∃ name, blob_names (net_ s) !! index idx = Some name
               ∧ is_Some (output_blob_map_ s !! name)).
Proof.
  intros Hnew. destruct (new_session_parts _ _ Hnew) as (_ & Hi & Ho & _).
  destruct (bind_names_round_trip _ _ _ Hi) as [Hi1 Hi2].
  destruct (bind_names_round_trip _ _ _ Ho) as [Ho1 Ho2].
  split; [exact Hi1|]. split; [exact Hi2|]. split; [exact Ho1 | exact Ho2].
Qed.

(** X2: emplace never overwrites, so when several declared input (or
    output) indices carry the same blob name, the name stays bound to the
    first of them in declaration order. *)
Theorem bindings_first_wins graph s name pre idx post :
  new_session graph = Some s →
  blob_names (net_ s) !! index idx = Some name →
  (∀ j, j ∈ pre → blob_names (net_ s) !! index j ≠ Some name) →
  (input_blob_indices (net_ s) = pre ++ idx :: post →
   input_blob_map_ s !! name = Some idx)
  ∧ (output_blob_indices (net_ s) = pre ++ idx :: post →
     output_blob_map_ s !! name = Some idx).
Proof.
  intros Hnew Hname Hpre.
  destruct (new_session_parts _ _ Hnew) as (_ & Hi & Ho & _).
  split; intros Heq.
  - apply (bind_names_lookup _ _ _ _ _ Hi). by exists pre, post.
  - apply (bind_names_lookup _ _ _ _ _ Ho). by exists pre, post.
Qed.

(** X3: the number of input bindings, which Run compares the number of
    inputs against, is at most the number of declared input blobs, and
    equal to it when the declared input blobs have distinct names. *)
Theorem bindings_count graph s :
  new_session graph = Some s →
  (size (input_blob_map_ s) ≤ length (input_blob_indices (net_ s)))%nat
  ∧ (NoDup ((λ idx, blob_names (net_ s) !! index idx)
              <$> input_blob_indices (net_ s)) →
     size (input_blob_map_ s) = length (input_blob_indices (net_ s))).
Proof.
  intros Hnew. destruct (new_session_parts _ _ Hnew) as (_ & Hi & _).
  destruct (bind_names_from _ _ _ _ Hi) as (_ & _ & Hle & Heq).
  rewrite map_size_empty in *. split; [lia|].
  intros Hnd. rewrite Heq; [lia | done |]. intros. apply lookup_empty.
Qed.

End Bindings.

Lemma bindings_round_trip_witness :
  (∀ name idx, input_blob_map_ (Toy.session 1) !! name = Some idx →
     idx ∈ input_blob_indices (net_ (Toy.session 1))
     ∧ blob_names (net_ (Toy.session 1)) !! index idx = Some name)
  ∧ (∀ idx, idx ∈ output_blob_indices (net_ (Toy.session 1)) →
       ∃ name, blob_names (net_ (Toy.session 1)) !! index idx = Some name
               ∧ is_Some (output_blob_map_ (Toy.session 1) !! name)).
Proof.
  destruct (bindings_round_trip (H := Toy.engine) (Toy.graph 1)
              (Toy.session 1)) as (Hin & _ & _ & Hout).
  - vm_compute. reflexivity.
  - split; [exact Hin | exact Hout].
Defined.

Lemma bindings_first_wins_witness :
  ∃ s,
    new_session (H := Toy.engine)
      (mkNet [mkBlob [1; 2] [0; 0]; mkBlob [1; 2] [0; 0]] ["x"; "x"]
             [0; 1] [] []) = Some s
    ∧ input_blob_map_ s !! "x" = Some 0.
Proof.
  exists (mkSession
            (mkNet [mkBlob [1; 2] [0; 0]; mkBlob [1; 2] [0; 0]] ["x"; "x"]
                   [0; 1] [] []) 1 {["x" := 0]} ∅).
  assert (new_session (H := Toy.engine)
            (mkNet [mkBlob [1; 2] [0; 0]; mkBlob [1; 2] [0; 0]] ["x"; "x"]
                   [0; 1] [] [])
          = Some (mkSession
                    (mkNet [mkBlob [1; 2] [0; 0]; mkBlob [1; 2] [0; 0]]
                           ["x"; "x"] [0; 1] [] []) 1 {["x" := 0]} ∅))
    as Hnew by (vm_compute; reflexivity).
  split; [exact Hnew|].
  apply (proj1 (bindings_first_wins (H := Toy.engine) _ _ "x" [] 0 [1] Hnew
                  eq_refl (λ j Hj, False_ind _ (proj1 (elem_of_nil j) Hj)))).
  reflexivity.
Defined.

Lemma bindings_count_witness :
  (size (input_blob_map_ (Toy.session 1))
   ≤ length (input_blob_indices (net_ (Toy.session 1))))%nat
  ∧ size (input_blob_map_ (Toy.session 1)) = 1%nat.
Proof.
  destruct (bindings_count (H := Toy.engine) (Toy.graph 1) (Toy.session 1))
    as [Hle Heq].
  - vm_compute. reflexivity.
  - split; [exact Hle|]. rewrite Heq; [reflexivity|].
    simpl. apply NoDup_singleton.
Defined.

Section Construction.
Context `{Engine}.

Lemma bind_names_total (names : list string) (idxs : list Z) :
  (∀ idx, idx ∈ idxs → is_Some (names !! index idx)) →
  is_Some (bind_names names idxs).
Proof.
  unfold bind_names. generalize (∅ : gmap string Z).
  induction idxs as [|idx idxs IH]; intros m0 Hrange; simpl; [eauto|].
  destruct (Hrange idx (list_elem_of_here _ _)) as [name ->]. simpl.
  apply IH. intros i Hi. apply Hrange. by right.
Qed.

Lemma BatchSizeOf_None_step net idxs :
  foldl (λ acc idx,
           x ← acc;
           blob ← blobs net !! index idx;
           let shape := shape blob in
           if bool_decide (1 < length shape)%nat && (0 <? hd 0 shape)
           then Some (Z.max x (to_uint32 (hd 0 shape)))
           else Some x) None idxs = None.
Proof. induction idxs as [|idx idxs IH]; simpl; done. Qed.

(** BatchSizeOf returns exactly when every declared input index names a
    blob ([.at(idx)] throws otherwise). *)
Lemma BatchSizeOf_returns net :
  is_Some (BatchSizeOf net) ↔ inputs_in_range net.
Proof.
  unfold BatchSizeOf, inputs_in_range. generalize 1.
  induction (input_blob_indices net) as [|idx idxs IH]; intros x; simpl.
  { split; [|eauto]. intros _ i Hi. by apply elem_of_nil in Hi. }
  destruct (blobs net !! index idx) as [blob|] eqn:Hb; simpl.
  - destruct (bool_decide _ && _); rewrite IH; split.
    all: try (intros Hr i Hi; apply elem_of_cons in Hi as [-> | Hi];
              [by rewrite Hb | by apply Hr]).
    all: intros Hr i Hi; apply Hr; by right.
  - rewrite BatchSizeOf_None_step. split.
    + by intros [? ?].
    + intros Hr. specialize (Hr idx (list_elem_of_here _ _)).
      rewrite Hb in Hr. by destruct Hr.
Qed.

(** From line 107 on, the constructor returns a session exactly when the
    engine builds the net, every declared input and output index has a
    blob name, and every declared input index names a blob. *)
Lemma new_session_returns graph :
  is_Some (new_session graph) ↔
  ∃ net, Net_new graph = Some net
         ∧ (∀ idx, idx ∈ input_blob_indices net ++ output_blob_indices net →
                   is_Some (blob_names net !! index idx))
         ∧ inputs_in_range net.
Proof.
  split.
  - intros [s Hnew].
    destruct (new_session_parts _ _ Hnew) as (Hnet & Hi & Ho & Hb).
    exists (net_ s). split; [done|]. split.
    + intros idx Hidx. apply elem_of_app in Hidx as [Hidx | Hidx].
      * by apply (proj1 (bind_names_from _ _ _ _ Hi)).
      * by apply (proj1 (bind_names_from _ _ _ _ Ho)).
    + apply BatchSizeOf_returns. eauto.
  - intros (net & Hnet & Hnames & Hrange). unfold new_session.
    rewrite Hnet. simpl.
    destruct (bind_names_total (blob_names net) (input_blob_indices net))
      as [mi ->].
    { intros idx Hidx. apply Hnames, elem_of_app. by left. }
    destruct (bind_names_total (blob_names net) (output_blob_indices net))
      as [mo ->].
    { intros idx Hidx. apply Hnames, elem_of_app. by right. }
    apply BatchSizeOf_returns in Hrange as [e ->]. simpl. eauto.
Qed.

Lemma perform_bindings op w st w' :
  call (perform op) w = Some (st, w') →
  same_bindings (session w) (session w').
Proof.
  intros Hcall. destruct op as [r|b|f]; simpl in Hcall.
  - by destruct (run_capacity r w st w' (session w) eq_refl Hcall).
  - apply call_Some in Hcall. pose proof (Reshape_cases b w) as HR.
    destruct Hcall as [[_ Hrun] | Hrun]; rewrite Hrun in HR.
    + by destruct HR as (_ & ? & _).
    + by destruct HR as (-> & _).
  - apply call_Some in Hcall.
    pose proof (CopyTrainedLayers_cases f w) as HC.
    destruct Hcall as [[_ Hrun] | Hrun]; rewrite Hrun in HC.
    + by destruct HC as (? & _).
    + by destruct HC as (-> & _).
Qed.

(** X5: no member function ever changes a binding table: after any
    sequence of Run, Reshape and weight-loading calls both tables are what
    they were, and so the opening checks of Run settle on the same batch
    size for a given request at every point of the session's life. *)
Theorem bindings_immutable ops w w' :
  perform_all ops w = Some w' →
  same_bindings (session w) (session w')
  ∧ ∀ r, determined_batch_size (session w') r
         = determined_batch_size (session w) r.
Proof.
  intros Hops.
  assert (same_bindings (session w) (session w')) as Hsame.
  { revert w Hops. induction ops as [|op ops IH]; intros w; simpl.
    - by intros [= <-].
    - destruct (call (perform op) w) as [[st w1]|] eqn:Hcall; [|done].
      intros Hrest. destruct (perform_bindings _ _ _ _ Hcall) as [? ?].
      destruct (IH w1 Hrest) as [? ?]. split; congruence. }
  split; [done|]. intros r. unfold determined_batch_size.
  pose proof (request_batch_size_session (req_inputs r) (req_targets r)
                (mkWorld (session w') [] []) (session w)) as Heq.
  simpl in Heq. rewrite Heq by (symmetry; apply Hsame).
  by destruct (request_batch_size _ _ (mkWorld (session w) [] [])).
Qed.

End Construction.

Lemma bindings_immutable_witness :
  ∃ w',
    perform_all (H := Toy.engine)
      [DoReshape 3;
       DoRun (mkRequest [("data", Toy.tensor 5 [1; 2; 3; 4; 5; 6; 7; 8; 9; 10])]
                        ["prob"] []);
       DoCopyTrainedLayers "lenet.caffemodel"]
      (Toy.world 1) = Some w'
    ∧ same_bindings (Toy.session 1) (session w').
Proof.
  eexists. split; [vm_compute; reflexivity|].
  eapply (bindings_immutable (H := Toy.engine)
            [DoReshape 3;
             DoRun (mkRequest
                      [("data", Toy.tensor 5 [1; 2; 3; 4; 5; 6; 7; 8; 9; 10])]
                      ["prob"] []);
             DoCopyTrainedLayers "lenet.caffemodel"] (Toy.world 1)).
  vm_compute. reflexivity.
Defined.

(** ** The input loop in detail *)

Section InputLoop.
Context `{Engine}.

(** What one completed iteration did. *)
Lemma copy_input_Done b inp w w' :
  copy_input b inp w = Done tt w' →
  ∃ it blob,
    input_blob_map_ (session w) !! inp.1 = Some it
    ∧ dim_size inp.2 0 = Some b
    ∧ dtype inp.2 = DT_FLOAT
    ∧ blobs (net_ (session w)) !! Z.to_nat (to_uint32 it) = Some blob
    ∧ (length (tensor_data inp.2) ≤ length (cpu_data blob))%nat
    ∧ w' = mkWorld
             (mkSession
                (with_blobs
                   (<[Z.to_nat (to_uint32 it) :=
                        mkBlob (shape blob)
                          (tensor_data inp.2
                           ++ drop (length (tensor_data inp.2))
                                (cpu_data blob))]>
                      (blobs (net_ (session w))))
                   (net_ (session w)))
                (batch_size_ (session w)) (input_blob_map_ (session w))
                (output_blob_map_ (session w)))
             (outputs w) (trace w ++ [EvCopyInput (to_uint32 it)]).
Proof.
  unfold copy_input. unfold_monad. simpl.
  destruct (input_blob_map_ (session w) !! inp.1) as [it|] eqn:Hit; simpl;
    [|done].
  destruct (dim_size inp.2 0) as [d|] eqn:Hd; simpl; [|done].
  destruct (d =? b) eqn:Hdb; simpl; [|done].
  apply Z.eqb_eq in Hdb. subst d.
  destruct (decide (dtype inp.2 = DT_FLOAT)) as [Hf|]; simpl; [|done].
  destruct (blobs (net_ (session w)) !! Z.to_nat (to_uint32 it))
    as [blob|] eqn:Hb; simpl; [|done].
  unfold copy_n. case_bool_decide as Hlen; simpl; [|done].
  intros [= <-]. by exists it, blob.
Qed.

(** The completed loop: one copy event per input, in order; no blob
    changes shape or storage size; a blob no input is bound to is left as
    it was; nothing but blobs changes. *)
Lemma copy_inputs_Done b inputs w w' :
  for_each (copy_input b) inputs w = Done tt w' →
  trace w' = trace w ++ copy_events (session w) inputs
  ∧ length (copy_events (session w) inputs) = length inputs
  ∧ Forall (fits (session w) b) inputs
  ∧ (∀ i, shape <$> blobs (net_ (session w')) !! i
          = shape <$> blobs (net_ (session w)) !! i)
  ∧ same_storage (net_ (session w)) (net_ (session w'))
  ∧ (∀ i, (∀ inp, inp ∈ inputs → target (session w) inp ≠ Some i) →
          blobs (net_ (session w')) !! i = blobs (net_ (session w)) !! i)
  ∧ quiet w w'.
Proof.
  revert w. induction inputs as [|inp inputs IH]; intros w; simpl.
  { intros [= <-]. rewrite app_nil_r. repeat split; try done.
    apply no_forward_refl. }
  unfold mbind at 1, M_bind at 1.
  destruct (copy_input b inp w) as [[] w1|st w1|] eqn:Hstep; [|done..].
  intros Hrest.
  destruct (copy_input_Done _ _ _ _ Hstep)
    as (it & blob & Hit & Hd & Hf & Hb & Hlen & Hw1).
  destruct (IH w1 Hrest) as (Htr & Hn & Hfits & Hsh & Hst & Hun & Hq).
  assert (input_blob_map_ (session w1) = input_blob_map_ (session w)) as Hmap
    by (by rewrite Hw1).
  assert (copy_events (session w1) inputs = copy_events (session w) inputs)
    as Hev by (unfold copy_events; by rewrite Hmap).
  assert (∀ i, shape <$> blobs (net_ (session w1)) !! i
               = shape <$> blobs (net_ (session w)) !! i) as Hsh1.
  { intros i. rewrite Hw1. simpl.
    destruct (decide (i = Z.to_nat (to_uint32 it))) as [-> | Hne].
    - rewrite list_lookup_insert_eq by (by eapply lookup_lt_Some).
      by rewrite Hb.
    - by rewrite list_lookup_insert_ne. }
  assert (same_storage (net_ (session w)) (net_ (session w1))) as Hst1.
  { intros i. rewrite Hw1. simpl.
    destruct (decide (i = Z.to_nat (to_uint32 it))) as [-> | Hne].
    - rewrite list_lookup_insert_eq by (by eapply lookup_lt_Some).
      rewrite Hb. simpl. f_equal. rewrite length_app, length_drop. lia.
    - by rewrite list_lookup_insert_ne. }
  assert (same_bindings (session w) (session w1)) as Hsame
    by (by rewrite Hw1).
  split; [|split; [|split; [|split; [|split; [|split]]]]].
  - rewrite Htr, Hev, Hw1. simpl. unfold copy_events at 2. simpl.
    rewrite Hit. simpl. by rewrite <- app_assoc.
  - unfold copy_events. simpl. rewrite Hit. simpl. f_equal.
    rewrite <- Hn. unfold copy_events. by rewrite Hmap.
  - constructor; [by exists it, blob|].
    eapply Forall_impl; [exact Hfits|]. intros x Hx.
    destruct Hx as (it' & blob' & Hit' & Hd' & Hf' & Hb' & Hlen').
    specialize (Hst1 (Z.to_nat (to_uint32 it'))). rewrite Hb' in Hst1.
    destruct (blobs (net_ (session w)) !! Z.to_nat (to_uint32 it'))
      as [blob0|] eqn:Hb0; [|done].
    simpl in Hst1. injection Hst1 as Hst1.
    exists it', blob0. rewrite <- Hmap. repeat split; try done. lia.
  - intros i. by rewrite Hsh, Hsh1.
  - intros i. by rewrite Hst, Hst1.
  - intros i Hnot. rewrite Hun.
    + rewrite Hw1. simpl. apply list_lookup_insert_ne.
      intros <-. apply (Hnot inp); [left|]. unfold target. by rewrite Hit.
    + intros x Hx. unfold target. rewrite Hmap. apply Hnot. by right.
  - eapply quiet_trans; [|exact Hq]. rewrite Hw1. repeat split; simpl.
    by apply no_forward_emit.
Qed.

(** The last input bound to a blob decides what the blob starts with: its
    elements, in order. *)
Lemma copy_inputs_last b pre inp post w w' i :
  for_each (copy_input b) (pre ++ inp :: post) w = Done tt w' →
  target (session w) inp = Some i →
  (∀ x, x ∈ post → target (session w) x ≠ Some i) →
  ∃ blob, blobs (net_ (session w')) !! i = Some blob
          ∧ take (length (tensor_data inp.2)) (cpu_data blob)
            = tensor_data inp.2.
Proof.
  rewrite for_each_app. unfold mbind at 1, M_bind at 1.
  destruct (for_each (copy_input b) pre w) as [[] w1|st w1|] eqn:Hpre;
    [|done..].
  simpl. unfold mbind at 1, M_bind at 1.
  destruct (copy_input b inp w1) as [[] w2|st w2|] eqn:Hstep; [|done..].
  intros Hpost Htarget Hlater.
  destruct (copy_inputs_Done _ _ _ _ Hpre) as (_ & _ & _ & _ & _ & _ & Hq1).
  destruct (copy_input_Done _ _ _ _ Hstep)
    as (it & blob & Hit & Hd & Hf & Hb & Hlen & Hw2).
  assert (input_blob_map_ (session w1) = input_blob_map_ (session w)) as Hm1
    by apply Hq1.
  assert (i = Z.to_nat (to_uint32 it)) as ->.
  { unfold target in Htarget. rewrite <- Hm1, Hit in Htarget. simpl in Htarget.
    by injection Htarget. }
  destruct (copy_inputs_Done _ _ _ _ Hpost) as (_ & _ & _ & _ & _ & Hun & _).
  rewrite Hun.
  - rewrite Hw2. simpl.
    rewrite list_lookup_insert_eq by (by eapply lookup_lt_Some).
    eexists. split; [done|]. simpl. apply take_app_length.
  - intros x Hx. unfold target. rewrite Hw2. simpl. rewrite Hm1.
    by apply Hlater.
Qed.

End InputLoop.

(** ** Where a loop stops, and what the engine is asked to do *)


Lemma copy_events_app s l1 l2 :
  copy_events s (l1 ++ l2) = copy_events s l1 ++ copy_events s l2.
Proof. unfold copy_events. apply omap_app. Qed.

Lemma copy_events_not_reshape s inputs :
  Forall (λ e, ¬ is_reshape_event e) (copy_events s inputs).
Proof.
  apply Forall_forall. intros e He. unfold copy_events in He.
  apply list_elem_of_omap in He as (inp & _ & Hev).
  destruct (input_blob_map_ s !! inp.1); simpl in Hev; [|done].
  injection Hev as <-. simpl. tauto.
Qed.

Lemma copy_events_no_forward s inputs : EvForward ∉ copy_events s inputs.
Proof.
  intros He. unfold copy_events in He.
  apply list_elem_of_omap in He as (inp & _ & Hev).
  by destruct (input_blob_map_ s !! inp.1).
Qed.

Section Events.
Context `{Engine}.

Lemma reshape_input_events b idx w :
  match reshape_input b idx w with
  | Done _ w' =>
      ∃ evs, trace w' = trace w ++ evs ∧ Forall is_reshape_event evs
  | _ => True
  end.
Proof.
  unfold reshape_input. unfold_monad. simpl.
  destruct (blobs (net_ (session w)) !! index idx) as [blob|]; simpl; [|done].
  destruct (bool_decide _ && _); simpl.
  - destruct (Blob_Reshape _ _); simpl; [|done].
    eexists. split; [done|]. by repeat constructor.
  - exists []. by rewrite app_nil_r.
Qed.

Lemma reshape_loop_events b idxs w :
  match for_each (reshape_input b) idxs w with
  | Done _ w' =>
      ∃ evs, trace w' = trace w ++ evs ∧ Forall is_reshape_event evs
  | _ => True
  end.
Proof.
  revert w. induction idxs as [|idx idxs IH]; intros w; simpl.
  { exists []. by rewrite app_nil_r. }
  unfold mbind, M_bind. pose proof (reshape_input_events b idx w) as H1.
  destruct (reshape_input b idx w) as [[] w1|st w1|]; [|done..].
  specialize (IH w1).
  destruct (for_each (reshape_input b) idxs w1) as [[] w2|st w2|]; [|done..].
  destruct H1 as (e1 & He1 & Hf1), IH as (e2 & He2 & Hf2).
  exists (e1 ++ e2). rewrite He2, He1, app_assoc. split; [done|].
  by apply Forall_app.
Qed.

(** The engine calls of lines 159-161 are reshapes, and there is none when
    the batch size is within the capacity. *)
Lemma grow_to_events b w w1 :
  grow_to b w = Done tt w1 →
  ∃ evs, trace w1 = trace w ++ evs ∧ Forall is_reshape_event evs
         ∧ (b ≤ batch_size_ (session w) → evs = []).
Proof.
  unfold grow_to. unfold mbind at 1, M_bind at 1, get at 1.
  destruct (batch_size_ (session w) <? b) eqn:Hlt.
  2:{ intros [= <-]. exists []. by rewrite app_nil_r. }
  apply Z.ltb_lt in Hlt. unfold Reshape.
  unfold mbind at 1, M_bind at 1, return_if.
  destruct (b <=? 0); simpl; [done|].
  unfold mbind at 1, M_bind at 1, get at 1.
  destruct (batch_size_ (session w) =? b) eqn:Heq;
    [apply Z.eqb_eq in Heq; lia|].
  unfold mbind at 1, M_bind at 1.
  pose proof (reshape_loop_events b (input_blob_indices (net_ (session w))) w)
    as Hloop.
  destruct (for_each _ _ w) as [[] w0|st w0|]; [|done..].
  destruct Hloop as (evs & Htr & Hall).
  unfold_monad. simpl.
  destruct (Net_Reshape (net_ (session w0))); simpl; [|done].
  intros [= <-]. simpl. exists (evs ++ [EvNetReshape]).
  rewrite Htr, app_assoc. split; [done|]. split; [|lia].
  apply Forall_app. split; [done|]. by repeat constructor.
Qed.

End Events.

(** ** Run seen from the caller *)

Section RunFacts.
Context `{Engine}.

Lemma to_uint32_range z : 0 ≤ to_uint32 z < 2 ^ 32.
Proof. unfold to_uint32. apply Z.mod_pos_bound. lia. Qed.

(** The stages of a Run that got as far as the forward pass, with what
    each left behind. *)
Lemma Run_forward_stage inputs targets w b w1 w2 w3 :
  request_batch_size inputs targets w = Done b w →
  grow_to b w = Done tt w1 →
  for_each (copy_input b) inputs w1 = Done tt w2 →
  forward w2 = Done tt w3 →
  1 ≤ b < 2 ^ 32
  ∧ same_bindings (session w) (session w1)
  ∧ same_bindings (session w) (session w3)
  ∧ batch_size_ (session w3) = Z.max (batch_size_ (session w)) b
  ∧ Net_Forward (net_ (session w2)) = Some (net_ (session w3))
  ∧ ∃ revs,
      trace w3 = trace w ++ revs ++ copy_events (session w) inputs
                 ++ [EvForward]
      ∧ Forall is_reshape_event revs
      ∧ (b ≤ batch_size_ (session w) → revs = [] ∧ w1 = w).
Proof.
  intros Hreq Hg Hin Hfw.
  pose proof (request_batch_size_cases inputs targets w) as Hr.
  rewrite Hreq in Hr.
  destruct Hr as (_ & _ & _ & in0 & d0 & _ & _ & _ & Hb & Hb1).
  pose proof (to_uint32_range d0) as Hrange. rewrite <- Hb in Hrange.
  pose proof (grow_to_cases b w Hb1) as Hgc. rewrite Hg in Hgc.
  destruct Hgc as (Hs1 & Hc1 & _ & _ & Hkeep).
  destruct (grow_to_events _ _ _ Hg) as (revs & Htr1 & Hall & Hnone).
  destruct (copy_inputs_Done _ _ _ _ Hin)
    as (Htr2 & _ & _ & _ & _ & _ & (Hs2 & Hc2 & _)).
  pose proof (forward_cases w2) as Hfc. rewrite Hfw in Hfc.
  destruct Hfc as (Hs3 & Hc3 & _ & Htr3 & Hnf).
  assert (copy_events (session w1) inputs = copy_events (session w) inputs)
    as Hev.
  { unfold copy_events. by rewrite (proj1 Hs1). }
  split; [lia|]. split; [done|]. split.
  { destruct Hs1 as [? ?], Hs2 as [? ?], Hs3 as [? ?]. split; congruence. }
  split; [congruence|]. split; [done|].
  exists revs. split.
  { rewrite Htr3, Htr2, Htr1, Hev. by rewrite <- !app_assoc. }
  split; [done|]. intros Hle. split; [by apply Hnone | by apply Hkeep].
Qed.

(** X6: Run returns OK only for a request with no target nodes, at least
    as many inputs as there are input bindings, every input a float tensor
    with a bound name and the one leading dimension b (1 <= b < 2^32), and
    every requested output name bound. *)
Theorem Run_OK_request inputs names targets w w' :
  call (Run inputs names targets) w = Some (OK, w') →
  targets = []
  ∧ (size (input_blob_map_ (session w)) ≤ length inputs)%nat
  ∧ inputs ≠ []
  ∧ (∃ b, 1 ≤ b < 2 ^ 32
          ∧ Forall (λ inp : string * Tensor,
                      is_Some (input_blob_map_ (session w) !! inp.1)
                      ∧ dim_size inp.2 0 = Some b
                      ∧ dtype inp.2 = DT_FLOAT) inputs)
  ∧ Forall (λ out, is_Some (output_blob_map_ (session w) !! out)) names.
Proof.
  intros Hcall. apply call_Some in Hcall.
  pose proof (Run_cases inputs names targets w) as HR.
  destruct Hcall as [[_ Hrun] | Hrun]; rewrite Hrun in HR.
  2:{ pose proof (request_batch_size_cases inputs targets w) as Hr.
      destruct HR as [Hfail | [(b & w1 & Hreq & Hg & Hloop) |
                               (b & w1 & w2 & w3 & _ & _ & _ & _ & Hout)]].
      - rewrite Hfail in Hr. by destruct Hr as (_ & ? & _).
      - pose proof (copy_inputs_cases b inputs w1) as Hic.
        rewrite Hloop in Hic. by destruct Hic as (_ & ? & _).
      - pose proof (copy_outputs_cases b names
                      (mkWorld (session w3) [] (trace w3))) as Hoc.
        rewrite Hout in Hoc. by destruct Hoc as (_ & _ & ? & _). }
  destruct HR as (b & w1 & w2 & w3 & Hreq & Hg & Hloop & Hfw & Hout).
  pose proof (request_batch_size_cases inputs targets w) as Hr.
  rewrite Hreq in Hr.
  destruct Hr as (_ & Ht & Hsize & in0 & d0 & Hin0 & _).
  destruct (Run_forward_stage _ _ _ _ _ _ _ Hreq Hg Hloop Hfw)
    as (Hb & Hs1 & Hs3 & _).
  destruct (copy_inputs_Done _ _ _ _ Hloop) as (_ & _ & Hfits & _).
  pose proof (copy_outputs_cases b names (mkWorld (session w3) [] (trace w3)))
    as Hoc. rewrite Hout in Hoc. simpl in Hoc. destruct Hoc as (ts & _ & Hts).
  split; [done|]. split; [done|]. split; [by intros ->|]. split.
  - exists b. split; [done|]. eapply Forall_impl; [exact Hfits|].
    intros inp (it & blob & Hit & Hd & Hf & _).
    rewrite <- (proj1 Hs1). eauto.
  - apply Forall_forall. intros out Hout'.
    apply list_elem_of_lookup in Hout' as [i Hi].
    destruct (Forall2_lookup_l _ _ _ _ _ Hts Hi) as (t & _ & it & _ & _ & Hit & _).
    rewrite <- (proj2 Hs3). eauto.
Qed.

(** X7: a Run that returns OK has called the engine for, in this order:
    the reshapes of the capacity growth (none when the batch size is
    within the capacity), one input copy per input of the request in the
    request's order, and exactly one forward pass, last. *)
Theorem Run_OK_trace inputs names targets w w' :
  call (Run inputs names targets) w = Some (OK, w') →
  ∃ revs,
    trace w' = trace w ++ revs ++ copy_events (session w) inputs
               ++ [EvForward]
    ∧ Forall is_reshape_event revs
    ∧ length (copy_events (session w) inputs) = length inputs
    ∧ (∀ b, request_batch_size inputs targets w = Done b w →
            b ≤ batch_size_ (session w) → revs = []).
Proof.
  intros Hcall. apply call_Some in Hcall.
  pose proof (Run_cases inputs names targets w) as HR.
  destruct Hcall as [[_ Hrun] | Hrun]; rewrite Hrun in HR.
  2:{ pose proof (request_batch_size_cases inputs targets w) as Hr.
      destruct HR as [Hfail | [(b & w1 & Hreq & Hg & Hloop) |
                               (b & w1 & w2 & w3 & _ & _ & _ & _ & Hout)]].
      - rewrite Hfail in Hr. by destruct Hr as (_ & ? & _).
      - pose proof (copy_inputs_cases b inputs w1) as Hic.
        rewrite Hloop in Hic. by destruct Hic as (_ & ? & _).
      - pose proof (copy_outputs_cases b names
                      (mkWorld (session w3) [] (trace w3))) as Hoc.
        rewrite Hout in Hoc. by destruct Hoc as (_ & _ & ? & _). }
  destruct HR as (b & w1 & w2 & w3 & Hreq & Hg & Hloop & Hfw & Hout).
  destruct (Run_forward_stage _ _ _ _ _ _ _ Hreq Hg Hloop Hfw)
    as (_ & Hs1 & _ & _ & _ & revs & Htr & Hrev & Hnone).
  pose proof (copy_outputs_cases b names (mkWorld (session w3) [] (trace w3)))
    as Hoc. rewrite Hout in Hoc. simpl in Hoc. destruct Hoc as (ts & -> & _).
  simpl. exists revs. split; [done|]. split; [done|]. split.
  - destruct (copy_inputs_Done _ _ _ _ Hloop) as (_ & Hlen & _).
    unfold copy_events in *. by rewrite (proj1 Hs1) in Hlen.
  - intros b' Hreq' Hle. assert (b' = b) as -> by congruence.
    by apply Hnone.
Qed.

(** X9: in a Run that returns OK and whose inputs all fit the blobs they
    are bound to (no tensor longer than its blob's storage, as it stands
    after the capacity growth of lines 159-161; line 179 copies without
    checking), the net handed to the forward pass holds each input's
    elements, in order, at the start of the blob the input is bound to;
    when several inputs are bound to one blob, the last of them in the
    request. *)
Theorem Run_forward_sees_inputs inputs names targets w w' b w1 :
  request_batch_size inputs targets w = Done b w →
  grow_to b w = Done tt w1 →
  Forall (fits (session w1) b) inputs →
  call (Run inputs names targets) w = Some (OK, w') →
  ∃ net, Net_Forward net = Some (net_ (session w'))
    ∧ ∀ pre inp post i,
        inputs = pre ++ inp :: post →
        target (session w) inp = Some i →
        (∀ x, x ∈ post → target (session w) x ≠ Some i) →
        ∃ blob, blobs net !! i = Some blob
                ∧ take (length (tensor_data inp.2)) (cpu_data blob)
                  = tensor_data inp.2.
Proof.
  intros Hreq0 Hg0 Hfits Hcall. apply call_Some in Hcall.
  pose proof (Run_cases inputs names targets w) as HR.
  destruct Hcall as [[_ Hrun] | Hrun]; rewrite Hrun in HR.
  2:{ pose proof (request_batch_size_cases inputs targets w) as Hr.
      destruct HR as [Hfail | [(b' & w1' & Hreq & Hg & Hloop) |
                               (b' & w1' & w2 & w3 & _ & _ & _ & _ & Hout)]].
      - rewrite Hfail in Hr. by destruct Hr as (_ & ? & _).
      - pose proof (copy_inputs_cases b' inputs w1') as Hic.
        rewrite Hloop in Hic. by destruct Hic as (_ & ? & _).
      - pose proof (copy_outputs_cases b' names
                      (mkWorld (session w3) [] (trace w3))) as Hoc.
        rewrite Hout in Hoc. by destruct Hoc as (_ & _ & ? & _). }
  destruct HR as (b' & w1' & w2 & w3 & Hreq & Hg & Hloop & Hfw & Hout).
  assert (b' = b) as -> by congruence.
  assert (w1' = w1) as -> by congruence.
  destruct (copy_inputs_fit b inputs w1 Hfits) as (w2' & Hcopy & _).
  assert (w2' = w2) as -> by congruence. clear Hcopy.
  destruct (Run_forward_stage _ _ _ _ _ _ _ Hreq Hg Hloop Hfw)
    as (_ & Hs1 & _ & _ & Hnet & _).
  pose proof (copy_outputs_cases b names (mkWorld (session w3) [] (trace w3)))
    as Hoc. rewrite Hout in Hoc. simpl in Hoc. destruct Hoc as (ts & -> & _).
  simpl. exists (net_ (session w2)). split; [done|].
  intros pre inp post i -> Htarget Hlater.
  apply (copy_inputs_last b pre inp post w1 w2 i Hloop).
  - unfold target in *. by rewrite (proj1 Hs1).
  - intros x Hx. unfold target in *. rewrite (proj1 Hs1). by apply Hlater.
Qed.

(** X10: when the batch size of a request is within the capacity, a Run
    that returns OK hands the forward pass the blobs as the session had
    them on entry, all with their old shapes and storage sizes, and with
    their old contents too wherever no input of the request is bound:
    nothing is reshaped for a smaller batch and nothing is cleared. *)
Theorem Run_keeps_unbound_blobs inputs names targets w b w' :
  request_batch_size inputs targets w = Done b w →
  b ≤ batch_size_ (session w) →
  call (Run inputs names targets) w = Some (OK, w') →
  ∃ net, Net_Forward net = Some (net_ (session w'))
    ∧ (∀ i, shape <$> blobs net !! i
            = shape <$> blobs (net_ (session w)) !! i)
    ∧ same_storage (net_ (session w)) net
    ∧ (∀ i, (∀ inp, inp ∈ inputs → target (session w) inp ≠ Some i) →
            blobs net !! i = blobs (net_ (session w)) !! i).
Proof.
  intros Hreq0 Hle Hcall. apply call_Some in Hcall.
  pose proof (Run_cases inputs names targets w) as HR.
  destruct Hcall as [[_ Hrun] | Hrun]; rewrite Hrun in HR.
  2:{ pose proof (request_batch_size_cases inputs targets w) as Hr.
      destruct HR as [Hfail | [(b' & w1 & Hreq & Hg & Hloop) |
                               (b' & w1 & w2 & w3 & _ & _ & _ & _ & Hout)]].
      - rewrite Hfail in Hr. by destruct Hr as (_ & ? & _).
      - pose proof (copy_inputs_cases b' inputs w1) as Hic.
        rewrite Hloop in Hic. by destruct Hic as (_ & ? & _).
      - pose proof (copy_outputs_cases b' names
                      (mkWorld (session w3) [] (trace w3))) as Hoc.
        rewrite Hout in Hoc. by destruct Hoc as (_ & _ & ? & _). }
  destruct HR as (b' & w1 & w2 & w3 & Hreq & Hg & Hloop & Hfw & Hout).
  assert (b' = b) as -> by congruence.
  destruct (Run_forward_stage _ _ _ _ _ _ _ Hreq Hg Hloop Hfw)
    as (_ & _ & _ & _ & Hnet & revs & _ & _ & Hnone).
  destruct (Hnone Hle) as [_ ->].
  pose proof (copy_outputs_cases b names (mkWorld (session w3) [] (trace w3)))
    as Hoc. rewrite Hout in Hoc. simpl in Hoc. destruct Hoc as (ts & -> & _).
  simpl. exists (net_ (session w2)). split; [done|].
  destruct (copy_inputs_Done _ _ _ _ Hloop) as (_ & _ & _ & Hsh & Hst & Hun & _).
  split; [done|]. split; [done|]. exact Hun.
Qed.

End RunFacts.

Section OutputFacts.
Context `{Engine}.


Lemma product_nonneg shape :
  Forall (λ d, 0 ≤ d) shape → 0 ≤ foldr Z.mul 1 shape.
Proof. induction 1; simpl; lia. Qed.

(** What AsTensor builds is a float tensor of the shape asked for that
    holds exactly as many elements as the shape says. *)
Lemma AsTensor_full data n shape t :
  AsTensor data n shape = Some t →
  dtype t = DT_FLOAT ∧ tensor_shape t = shape ∧ valid_shape t
  ∧ full_tensor t.
Proof.
  unfold AsTensor.
  destruct (bool_decide _ && _ && _) eqn:Hc; [|done].
  apply andb_true_iff in Hc as [[Hlen Hnn]%andb_true_iff Hn].
  apply bool_decide_eq_true in Hlen. apply Z.eqb_eq in Hn.
  assert (Forall (λ d, 0 ≤ d) shape) as Hvalid.
  { apply Forall_forall. intros d Hd. apply list_elem_of_In in Hd.
    rewrite forallb_forall in Hnn. by apply Z.leb_le, Hnn. }
  intros [= <-]. unfold valid_shape, full_tensor. simpl.
  repeat split; try done.
  pose proof (product_nonneg shape Hvalid). rewrite length_take. lia.
Qed.

Lemma copy_outputs_full b names w w' :
  for_each (copy_output b) names w = Done tt w' →
  ∃ ts, outputs w' = outputs w ++ ts
        ∧ Forall (λ t, dtype t = DT_FLOAT ∧ valid_shape t ∧ full_tensor t
                       ∧ dims t = 2) ts.
Proof.
  revert w. induction names as [|out names IH]; intros w; simpl.
  { intros [= <-]. exists []. by rewrite app_nil_r. }
  unfold mbind at 1, M_bind at 1.
  destruct (copy_output b out w) as [[] w1|st w1|] eqn:Hstep; [|done..].
  intros Hrest. destruct (IH w1 Hrest) as (ts & Hts & Hall).
  unfold copy_output in Hstep. unfold_monad. simpl in Hstep.
  destruct (output_blob_map_ (session w) !! out); simpl in Hstep; [|done].
  destruct (blobs (net_ (session w)) !! index z) as [blob|];
    simpl in Hstep; [|done].
  destruct (Blob_channels blob) as [c|]; simpl in Hstep; [|done].
  destruct (AsTensor _ _ _) as [t|] eqn:Ht; simpl in Hstep; [|done].
  injection Hstep as <-. simpl in Hts.
  destruct (AsTensor_full _ _ _ _ Ht) as (Hf & Hsh & Hv & Hfull).
  exists (t :: ts). rewrite Hts, <- app_assoc. split; [done|].
  constructor; [|done]. repeat split; try done.
  unfold dims. by rewrite Hsh.
Qed.

(** X11: every tensor a Run that returns OK hands back is a float tensor of
    two dimensions, none negative, holding exactly as many elements as its
    shape says. *)
Theorem Run_outputs_well_formed inputs names targets w w' :
  call (Run inputs names targets) w = Some (OK, w') →
  Forall (λ t, dtype t = DT_FLOAT ∧ valid_shape t ∧ full_tensor t
               ∧ dims t = 2) (outputs w').
Proof.
  intros Hcall. apply call_Some in Hcall.
  pose proof (Run_cases inputs names targets w) as HR.
  destruct Hcall as [[_ Hrun] | Hrun]; rewrite Hrun in HR.
  2:{ pose proof (request_batch_size_cases inputs targets w) as Hr.
      destruct HR as [Hfail | [(b & w1 & Hreq & Hg & Hloop) |
                               (b & w1 & w2 & w3 & _ & _ & _ & _ & Hout)]].
      - rewrite Hfail in Hr. by destruct Hr as (_ & ? & _).
      - pose proof (copy_inputs_cases b inputs w1) as Hic.
        rewrite Hloop in Hic. by destruct Hic as (_ & ? & _).
      - pose proof (copy_outputs_cases b names
                      (mkWorld (session w3) [] (trace w3))) as Hoc.
        rewrite Hout in Hoc. by destruct Hoc as (_ & _ & ? & _). }
  destruct HR as (b & w1 & w2 & w3 & _ & _ & _ & _ & Hout).
  destruct (copy_outputs_full _ _ _ _ Hout) as (ts & -> & Hall). done.
Qed.

(** X12: a first input whose leading dimension does not survive the
    conversion to unsigned int (2^32 or more) is never served: a Run that
    returns returns InvalidArgument without a forward pass.  The net may
    have been reshaped on the way: when the truncated value passes as a
    batch size, the capacity is left at the larger of its old value and
    the truncated one. *)
Theorem Run_batch_truncated inputs names targets w in0 d0 :
  inputs !! 0%nat = Some in0 → dim_size in0.2 0 = Some d0 →
  to_uint32 d0 ≠ d0 →
  is_Some (call (Run inputs names targets) w) →
  ∃ msg w',
    call (Run inputs names targets) w = Some (InvalidArgument msg, w')
    ∧ no_forward w w'
    ∧ (request_batch_size inputs targets w = Done (to_uint32 d0) w →
       batch_size_ (session w')
       = Z.max (batch_size_ (session w)) (to_uint32 d0)).
Proof.
  intros Hin0 Hd0 Hne Hsome.
  destruct (batch_mismatch_rejected inputs names targets w in0 d0 in0 d0)
    as (msg & w' & Hcall & Hnf); try done.
  { by eapply list_elem_of_lookup_2. }
  exists msg, w'. split; [done|]. split; [done|]. intros Hreq.
  destruct (Run_capacity _ _ _ _ _ _ Hcall) as [_ Hcap].
  by rewrite Hreq in Hcap.
Qed.

End OutputFacts.

Section CapacityExact.
Context `{Engine}.

Lemma determined_batch_size_bindings s s' r :
  input_blob_map_ s' = input_blob_map_ s →
  determined_batch_size s' r = determined_batch_size s r.
Proof.
  intros Hmap. unfold determined_batch_size.
  pose proof (request_batch_size_session (req_inputs r) (req_targets r)
                (mkWorld s' [] []) s) as Heq.
  simpl in Heq. rewrite Heq by done.
  by destruct (request_batch_size _ _ (mkWorld s [] [])).
Qed.

(** X13: over a sequence of Run calls that all return, the capacity ends
    at exactly the largest of its starting value and the batch sizes of the
    requests that passed the opening checks: Run grows the capacity to the
    batch size it needs and no further, and a request rejected by the
    checks in the input loop has still grown it. *)
Theorem capacity_exact reqs w w' :
  perform_all (DoRun <$> reqs) w = Some w' →
  batch_size_ (session w')
  = foldl Z.max (batch_size_ (session w))
      (omap (determined_batch_size (session w)) reqs).
Proof.
  revert w. induction reqs as [|r reqs IH]; intros w; simpl.
  { by intros [= <-]. }
  destruct (call (run r) w) as [[st w1]|] eqn:Hcall; [|done].
  intros Hrest. rewrite (IH w1 Hrest).
  destruct (run_capacity r w st w1 (session w) eq_refl Hcall)
    as [[Hi _] Hcap].
  assert (omap (determined_batch_size (session w1)) reqs
          = omap (determined_batch_size (session w)) reqs) as ->.
  { apply list_omap_ext, Forall2_same_length_lookup. split; [done|].
    intros i r1 r2 H1 H2. assert (r1 = r2) as -> by congruence.
    by apply determined_batch_size_bindings. }
  rewrite Hcap. by destruct (determined_batch_size (session w) r).
Qed.

End CapacityExact.

(** ** Device selection *)

Lemma push_range_app n i gpus :
  push_range n i gpus = gpus ++ ((λ k, i + Z.of_nat k) <$> seq 0 n).
Proof.
  revert i gpus. induction n as [|n IH]; intros i gpus; simpl.
  { by rewrite app_nil_r. }
  rewrite IH, <- app_assoc. simpl. f_equal. rewrite Z.add_0_r. f_equal.
  rewrite <- fmap_S_seq, <- list_fmap_compose. apply list_fmap_ext.
  intros _ k _. simpl. lia.
Qed.

(** X14: GetGPUs keeps what the vector held and appends the device ids
    0, 1, ..., count-1 in this order, where count is what
    cudaGetDeviceCount reported; it appends nothing in a CPU_ONLY build or
    when the count is zero or negative. *)
Theorem GetGPUs_appends cpu_only cudaGetDeviceCount gpus :
  GetGPUs cpu_only cudaGetDeviceCount gpus =
  match (if cpu_only then Some 0 else cudaGetDeviceCount) with
  | Some count => Some (gpus ++ (Z.of_nat <$> seq 0 (Z.to_nat count)))
  | None => None
  end.
Proof.
  unfold GetGPUs.
  destruct (if cpu_only then Some 0 else cudaGetDeviceCount) as [count|];
    simpl; [|done].
  rewrite push_range_app, Z.sub_0_r. do 2 f_equal.
Qed.

(** X15: TryAssignGPU answers true exactly when the build has GPU support
    and at least one device is reported; it then selects GPU mode on device
    0, however many devices there are.  Otherwise it selects CPU mode and
    leaves the device alone. *)
Theorem TryAssignGPU_selects cpu_only cudaGetDeviceCount g :
  TryAssignGPU cpu_only cudaGetDeviceCount g =
  match (if cpu_only then Some 0 else cudaGetDeviceCount) with
  | Some count =>
      if 0 <? count then Some (true, mkGlobal GPU 0)
      else Some (false, mkGlobal CPU (device g))
  | None => None
  end.
Proof.
  unfold TryAssignGPU, GetGPUs.
  destruct (if cpu_only then Some 0 else cudaGetDeviceCount) as [count|];
    simpl; [|done].
  rewrite push_range_app, Z.sub_0_r. simpl.
  destruct (0 <? count) eqn:Hc.
  - apply Z.ltb_lt in Hc.
    destruct (Z.to_nat count) as [|n] eqn:Hn; [lia|]. simpl. done.
  - apply Z.ltb_ge in Hc. replace (Z.to_nat count) with 0%nat by lia.
    simpl. done.
Qed.

(** ** The properties above at work on the toy engine *)

Lemma Run_OK_request_witness :
  ∃ w',
    call (Run (H := Toy.engine) Toy.inputs4 ["prob"] []) (Toy.world 1)
    = Some (OK, w')
    ∧ Forall (λ out, is_Some (output_blob_map_ (Toy.session 1) !! out))
        ["prob"].
Proof.
  eexists. split; [vm_compute; reflexivity|].
  eapply (Run_OK_request (H := Toy.engine) Toy.inputs4 ["prob"] []
            (Toy.world 1)).
  vm_compute. reflexivity.
Defined.

Lemma Run_OK_trace_witness :
  ∃ w',
    call (Run (H := Toy.engine) Toy.inputs4 ["prob"] []) (Toy.world 1)
    = Some (OK, w')
    ∧ ∃ revs,
        trace w' = trace (Toy.world 1) ++ revs
                   ++ copy_events (Toy.session 1) Toy.inputs4 ++ [EvForward]
        ∧ Forall is_reshape_event revs.
Proof.
  eexists. split; [vm_compute; reflexivity|].
  destruct (Run_OK_trace (H := Toy.engine) Toy.inputs4 ["prob"] []
              (Toy.world 1) _ ltac:(vm_compute; reflexivity))
    as (revs & Htr & Hrev & _).
  exists revs. split; [exact Htr | exact Hrev].
Defined.


Lemma Run_forward_sees_inputs_witness :
  ∃ w' net,
    call (Run (H := Toy.engine) Toy.inputs4 ["prob"] []) (Toy.world 1)
    = Some (OK, w')
    ∧ Net_Forward (Engine := Toy.engine) net = Some (net_ (session w'))
    ∧ ∃ blob, blobs net !! 0%nat = Some blob
              ∧ take 8 (cpu_data blob) = [1; 2; 3; 4; 5; 6; 7; 8].
Proof.
  eexists.
  assert (∀ (A : Type) (P : Prop) (Q : A → Prop),
            P → (P → ∃ x, Q x) → ∃ x, P ∧ Q x) as Hex.
  { intros A P Q HP HQ. destruct (HQ HP) as [x Hx]. eauto. }
  apply Hex; [vm_compute; reflexivity|]. intros Hcall.
  assert (request_batch_size Toy.inputs4 [] (Toy.world 1)
          = Done 4 (Toy.world 1)) as Hreq by (vm_compute; reflexivity).
  assert (∃ w1, grow_to (H := Toy.engine) 4 (Toy.world 1) = Done tt w1
                ∧ Forall (fits (session w1) 4) Toy.inputs4)
    as (w1 & Hgrow & Hfits).
  { eexists. split; [vm_compute; reflexivity|].
    repeat constructor. eexists 0, _. vm_compute.
    repeat split; reflexivity. }
  destruct (Run_forward_sees_inputs (H := Toy.engine) Toy.inputs4 ["prob"] []
              (Toy.world 1) _ 4 w1 Hreq Hgrow Hfits Hcall)
    as (net & Hnet & Hdata).
  destruct (Hdata [] ("data", Toy.tensor 4 [1; 2; 3; 4; 5; 6; 7; 8]) []
              0%nat) as (blob & Hblob & Htake).
  - reflexivity.
  - vm_compute. reflexivity.
  - intros x Hx. destruct (proj1 (elem_of_nil x) Hx).
  - exists net. split; [exact Hnet|]. exists blob.
    split; [exact Hblob | exact Htake].
Defined.

Lemma Run_keeps_unbound_blobs_witness :
  ∃ w' net,
    call (Run (H := Toy.engine) Toy.inputs1 ["prob"] []) (Toy.world 4)
    = Some (OK, w')
    ∧ Net_Forward (Engine := Toy.engine) net = Some (net_ (session w'))
    ∧ blobs net !! 1%nat = blobs (net_ (Toy.session 4)) !! 1%nat
    ∧ shape <$> blobs net !! 0%nat = Some [4; 2].
Proof.
  eexists.
  assert (∀ (A : Type) (P : Prop) (Q : A → Prop),
            P → (P → ∃ x, Q x) → ∃ x, P ∧ Q x) as Hex.
  { intros A P Q HP HQ. destruct (HQ HP) as [x Hx]. eauto. }
  apply Hex; [vm_compute; reflexivity|]. intros Hcall.
  destruct (Run_keeps_unbound_blobs (H := Toy.engine) Toy.inputs1 ["prob"] []
              (Toy.world 4) 1 _ ltac:(vm_compute; reflexivity)
              ltac:(vm_compute; discriminate) Hcall)
    as (net & Hnet & Hsh & _ & Hun).
  exists net. split; [exact Hnet|]. split.
  - apply Hun. intros inp Hinp. apply list_elem_of_singleton in Hinp as ->.
    vm_compute. discriminate.
  - rewrite Hsh. reflexivity.
Defined.

Lemma Run_outputs_well_formed_witness :
  ∃ w',
    call (Run (H := Toy.engine) Toy.inputs4 ["prob"] []) (Toy.world 1)
    = Some (OK, w')
    ∧ Forall (λ t, dtype t = DT_FLOAT ∧ valid_shape t ∧ full_tensor t
                   ∧ dims t = 2) (outputs w').
Proof.
  eexists. split; [vm_compute; reflexivity|].
  eapply (Run_outputs_well_formed (H := Toy.engine) Toy.inputs4 ["prob"] []
            (Toy.world 1)).
  vm_compute. reflexivity.
Defined.

Lemma Run_batch_truncated_witness :
  ∃ msg w',
    call (Run (H := Toy.engine)
            [("data", mkTensor DT_FLOAT [4294967297; 2] [1; 2])] ["prob"] [])
         (Toy.world 1)
    = Some (InvalidArgument msg, w')
    ∧ no_forward (Toy.world 1) w'.
Proof.
  destruct (Run_batch_truncated (H := Toy.engine)
              [("data", mkTensor DT_FLOAT [4294967297; 2] [1; 2])] ["prob"] []
              (Toy.world 1)
              ("data", mkTensor DT_FLOAT [4294967297; 2] [1; 2]) 4294967297)
    as (msg & w' & Hcall & Hnf & _).
  - reflexivity.
  - reflexivity.
  - vm_compute. discriminate.
  - eexists. vm_compute. reflexivity.
  - exists msg, w'. split; [exact Hcall | exact Hnf].
Defined.

Lemma capacity_exact_witness :
  ∃ w',
    perform_all (H := Toy.engine)
      (DoRun <$> [mkRequest Toy.inputs4 ["prob"] [];
                  mkRequest Toy.inputs1 ["prob"] ["target"];
                  mkRequest Toy.inputs1 ["prob"] []])
      (Toy.world 1) = Some w'
    ∧ batch_size_ (session w') = 4.
Proof.
  eexists. split; [vm_compute; reflexivity|].
  rewrite (capacity_exact (H := Toy.engine)
             [mkRequest Toy.inputs4 ["prob"] [];
              mkRequest Toy.inputs1 ["prob"] ["target"];
              mkRequest Toy.inputs1 ["prob"] []] (Toy.world 1));
    vm_compute; reflexivity.
Defined.

(** ** Reshape and the estimate *)

Section ReshapeEstimate.
Context `{Engine}.

(** The two steps of a Reshape that actually reshapes. *)
Lemma Reshape_Done b w w' :
  b ≠ batch_size_ (session w) →
  Reshape b w = Done tt w' →
  0 < b
  ∧ ∃ w1, for_each (reshape_input b)
            (input_blob_indices (net_ (session w))) w = Done tt w1
          ∧ Net_Reshape (net_ (session w1)) = Some (net_ (session w'))
          ∧ batch_size_ (session w') = b.
Proof.
  intros Hne. unfold Reshape. unfold mbind at 1, M_bind at 1, return_if.
  destruct (b <=? 0) eqn:Hle; simpl; [done|]. apply Z.leb_gt in Hle.
  unfold mbind at 1, M_bind at 1, get at 1.
  destruct (batch_size_ (session w) =? b) eqn:Heq;
    [apply Z.eqb_eq in Heq; congruence|].
  unfold mbind at 1, M_bind at 1.
  destruct (for_each _ _ w) as [[] w1|st1 w1|] eqn:Hloop; [|done..].
  unfold_monad. simpl.
  destruct (Net_Reshape (net_ (session w1))) as [net2|] eqn:HNR; simpl;
    [|done].
  intros [= <-]. simpl. split; [done|]. by exists w1.
Qed.

(** X16: right after Reshape(b) has resized the input blobs, and before the
    engine propagates the shapes, the estimate BatchSizeOf would compute
    for the net is b itself, the capacity Reshape records, provided at
    least one declared input is resizable: all resizable inputs now share
    the leading dimension b, whatever they had before. *)
Theorem Reshape_estimate_agrees b w w' :
  Blob_Reshape_ok →
  1 ≤ b ≤ INT_MAX → b ≠ batch_size_ (session w) →
  int_shapes (net_ (session w)) → inputs_in_range (net_ (session w)) →
  (∃ idx blob, idx ∈ input_blob_indices (net_ (session w))
               ∧ blobs (net_ (session w)) !! index idx = Some blob
               ∧ resizable blob) →
  call (Reshape b) w = Some (OK, w') →
  ∃ net, Net_Reshape net = Some (net_ (session w'))
         ∧ BatchSizeOf net = Some b
         ∧ batch_size_ (session w') = b.
Proof.
  intros Hengine Hb Hne Hint Hrange (idx0 & blob0 & Hidx0 & Hblob0 & Hres0)
         Hcall.
  apply call_Some in Hcall as [[_ Hrun] | Hrun].
  2:{ pose proof (Reshape_cases b w) as HR. rewrite Hrun in HR.
      by destruct HR as (_ & _ & ?). }
  destruct (Reshape_Done _ _ _ Hne Hrun) as (_ & w1 & Hloop & HNR & Hcap).
  assert (1 ≤ b < 2 ^ 32) as Hb32 by (unfold INT_MAX in Hb; lia).
  destruct (reshape_loop_resized Hengine b (net_ (session w)) _ [] w w1 Hb32
              (inputs_resized_nil _ _) Hloop)
    as ((_ & Hidxs & _ & _ & Hlen & Hblobs) & _).
  simpl in Hblobs.
  set (net0 := net_ (session w)) in *. set (net1 := net_ (session w1)) in *.
  exists net1. split; [done|]. split; [|done].
  assert (∀ i blob1, blobs net1 !! i = Some blob1 →
            ∃ blob, blobs net0 !! i = Some blob
                    ∧ (blob1 = blob
                       ∨ (resizable blob
                          ∧ shape blob1 = <[0%nat := b]> (shape blob))))
    as Hback.
  { intros i blob1 H1.
    destruct (blobs net0 !! i) as [blob|] eqn:H0.
    2:{ apply lookup_ge_None in H0. apply lookup_lt_Some in H1. lia. }
    exists blob. split; [done|].
    destruct (Hblobs i blob H0) as (blob' & H1' & Hyes & Hno).
    assert (blob' = blob1) as -> by congruence.
    destruct (decide (i ∈ index <$> input_blob_indices net0)) as [Hin|Hnin].
    - destruct (decide ((1 < length (shape blob))%nat ∧ 0 < hd 0 (shape blob)))
        as [Hr|Hnr].
      + right. split; [done|]. by apply Hyes.
      + left. apply Hno. by intros [_ ?].
    - left. apply Hno. by intros [? _]. }
  assert (int_shapes net1) as Hint1.
  { intros blob1 Hin1. apply list_elem_of_lookup in Hin1 as [i H1].
    destruct (Hback i blob1 H1) as (blob & H0 & [-> | [_ Hsh]]).
    - apply Hint. by eapply list_elem_of_lookup_2.
    - rewrite Hsh. pose proof (Hint blob (list_elem_of_lookup_2 _ _ _ H0))
        as Hdims.
      destruct (shape blob) as [|d0 rest]; simpl; [done|].
      apply Forall_cons in Hdims as [_ Hrest]. constructor; [lia | done]. }
  assert (inputs_in_range net1) as Hrange1.
  { intros idx Hidx. rewrite Hidxs in Hidx.
    destruct (Hrange idx Hidx) as [blob Hbl].
    destruct (Hblobs _ _ Hbl) as (blob' & -> & _). eauto. }
  transitivity (Some (foldl Z.max 1 (batch_candidates net1)));
    [exact (BatchSizeOf_fold net1 _ 1 Hint1 Hrange1)|].
  f_equal.
  assert (∀ c, c ∈ batch_candidates net1 → c = b) as Hall.
  { intros c Hc. apply batch_candidates_spec in Hc
      as (idx & blob1 & Hidx & H1 & Hres1 & ->).
    destruct (Hback _ _ H1) as (blob & H0 & [-> | [[Hl _] Hsh]]).
    - destruct (Hblobs _ _ H0) as (blob' & H1' & Hyes & _).
      assert (blob' = blob) as -> by congruence.
      rewrite Hyes; [|rewrite <- Hidxs; by apply list_elem_of_fmap_2|done].
      destruct Hres1 as [Hl _].
      by destruct (shape blob) as [|d0 rest]; simpl in *; [lia|].
    - rewrite Hsh. by destruct (shape blob) as [|d0 rest]; simpl in *; [lia|]. }
  assert (b ∈ batch_candidates net1) as Hin.
  { apply batch_candidates_spec.
    destruct (Hblobs _ _ Hblob0) as (blob' & H1 & Hyes & _).
    assert (shape blob' = <[0%nat := b]> (shape blob0)) as Hsh.
    { apply Hyes; [by apply list_elem_of_fmap_2 | done]. }
    exists idx0, blob'. rewrite Hidxs. split; [done|]. split; [done|].
    destruct Hres0 as [Hl Hp]. unfold resizable. rewrite Hsh.
    destruct (shape blob0) as [|d0 rest]; simpl in *; [lia|].
    repeat split; try done; lia. }
  clear Hback Hint1 Hrange1.
  induction (batch_candidates net1) as [|c cs IH] using rev_ind.
  { by apply elem_of_nil in Hin. }
  rewrite foldl_app. simpl.
  assert (c = b) as -> by (apply Hall, elem_of_app; right; left).
  assert (∀ l, (∀ y, y ∈ l → y = b) → foldl Z.max 1 l ≤ b) as Hle.
  { clear -Hb. intros l. induction l as [|y l IHl] using rev_ind; intros Hl.
    - simpl. lia.
    - rewrite foldl_app. simpl.
      assert (y = b) as -> by (apply Hl, elem_of_app; right; left).
      assert (foldl Z.max 1 l ≤ b); [|lia].
      apply IHl. intros z Hz. apply Hl, elem_of_app. by left. }
  assert (foldl Z.max 1 cs ≤ b); [|lia].
  apply Hle. intros y Hy. apply Hall, elem_of_app. by left.
Qed.

End ReshapeEstimate.

Lemma Reshape_estimate_agrees_witness :
  ∃ w' net,
    call (Reshape (H := Toy.engine) 3) (Toy.world 1) = Some (OK, w')
    ∧ Net_Reshape (Engine := Toy.engine) net = Some (net_ (session w'))
    ∧ BatchSizeOf net = Some 3
    ∧ batch_size_ (session w') = 3.
Proof.
  eexists.
  assert (∀ (A : Type) (P : Prop) (Q : A → Prop),
            P → (P → ∃ x, Q x) → ∃ x, P ∧ Q x) as Hex.
  { intros A P Q HP HQ. destruct (HQ HP) as [x Hx]. eauto. }
  apply Hex; [vm_compute; reflexivity|]. intros Hcall.
  eapply (Reshape_estimate_agrees (H := Toy.engine) 3 (Toy.world 1) _
            Toy_Blob_Reshape_ok).
  - vm_compute. split; discriminate.
  - vm_compute. discriminate.
  - intros blob Hblob. unfold INT_MAX.
    apply elem_of_cons in Hblob as [-> | Hblob];
      [simpl; repeat constructor; lia|].
    apply list_elem_of_singleton in Hblob as ->.
    simpl; repeat constructor; lia.
  - intros idx Hidx. apply list_elem_of_singleton in Hidx as ->.
    eexists. reflexivity.
  - exists 0, (mkBlob [1; 2] [0; 0]). split; [left|]. split; [reflexivity|].
    split; simpl; lia.
  - exact Hcall.
Defined.

(** ** The constructor from its first statement *)

Lemma TryAssignGPU_returns cpu_only cudaGetDeviceCount g :
  is_Some (TryAssignGPU cpu_only cudaGetDeviceCount g) ↔
  (cpu_only = false → is_Some cudaGetDeviceCount).
Proof.
  unfold TryAssignGPU, GetGPUs. destruct cpu_only; simpl.
  { split; [done | eauto]. }
  destruct cudaGetDeviceCount as [count|]; simpl.
  2:{ split; [by intros [? ?] | intros Hc; by destruct (Hc eq_refl)]. }
  rewrite push_range_app, Z.sub_0_r. simpl. split; [eauto|]. intros _.
  destruct (Z.to_nat count) as [|n]; simpl; eauto.
Qed.

(** X4: the constructor yields a session exactly when the device query of
    line 106 returns (always in a CPU_ONLY build; in a GPU build, when
    cudaGetDeviceCount does not fail), the engine builds the net, every
    declared input and output index has a blob name, and every declared
    input index names a blob. *)
Theorem constructor_returns `{Engine} cpu_only cudaGetDeviceCount g graph :
  is_Some (construct cpu_only cudaGetDeviceCount g graph) ↔
  (cpu_only = false → is_Some cudaGetDeviceCount)
  ∧ ∃ net, Net_new graph = Some net
           ∧ (∀ idx, idx ∈ input_blob_indices net ++ output_blob_indices net →
                     is_Some (blob_names net !! index idx))
           ∧ inputs_in_range net.
Proof.
  rewrite <- new_session_returns,
    <- (TryAssignGPU_returns cpu_only cudaGetDeviceCount g).
  unfold construct. split.
  - intros [r Hr].
    destruct (TryAssignGPU cpu_only cudaGetDeviceCount g) as [t|];
      simpl in Hr; [|done].
    destruct (new_session graph) as [s|]; simpl in Hr; [|done].
    split; eauto.
  - intros [[t ->] [s ->]]. simpl. eauto.
Qed.
